(** * Tavor token core: a shallow embedding of the integer, arithmetic and
      repetition tokens, and the properties of their contract.

    Sources embedded here:
    - [token/primitives/int.go]  (ConstantInt, RandomInt, RangeInt)
    - the expressions package    (Add/Sub/Mul/DivArithmetic)
    - the lists package          (Least)

    Go's [int] and [uint] are taken to be 64 bits wide (the sources use
    [math.MaxInt64] with [int]); every arithmetic operation is written with its
    wrap-around.  Go strings are byte strings ([String.string]).  A panic of the
    Go runtime is the [Panic] outcome of the [result] monad. *)

From Stdlib Require Import ZArith String Ascii List Lia.
From Stdlib Require Import DecimalString DecimalZ DecimalN DecimalPos DecimalFacts.
From stdpp Require Import base option list gmap strings.

Local Open Scope Z_scope.
Set Warnings "-register-all".

(** ** Outcomes of a Go call *)

Inductive result (A : Type) : Type :=
| Ok (a : A)
| Panic (msg : string)
| OutOfFuel.
Arguments Ok {A} a.
Arguments Panic {A} msg.
Arguments OutOfFuel {A}.

#[global] Instance result_ret : MRet result := @Ok.
#[global] Instance result_bind : MBind result := λ A B f m,
  match m with
  | Ok a => f a
  | Panic msg => Panic msg
  | OutOfFuel => OutOfFuel
  end.

(** ** 64-bit integers *)

Definition MaxInt64 : Z := 9223372036854775807.
Definition MinInt64 : Z := -9223372036854775808.
Definition MaxUint32 : Z := 4294967295.
Definition MaxUint64 : Z := 18446744073709551615.

(** [to_int z] is the conversion [int(z)]: two's complement reduction. *)
Definition to_int (z : Z) : Z :=
  (z + 9223372036854775808) mod 18446744073709551616 - 9223372036854775808.

(** [to_uint z] is the conversion [uint(z)]. *)
Definition to_uint (z : Z) : Z := z mod 18446744073709551616.

Definition is_int (z : Z) : Prop := MinInt64 ≤ z ≤ MaxInt64.
Definition is_uint (z : Z) : Prop := 0 ≤ z ≤ MaxUint64.

Definition int_add (a b : Z) : Z := to_int (a + b).
Definition int_sub (a b : Z) : Z := to_int (a - b).
Definition int_mul (a b : Z) : Z := to_int (a * b).

(** Go's [/] and [%] on [int] truncate towards zero and panic on a zero
    divisor; [MinInt64 / -1] wraps. *)
Definition int_quo (a b : Z) : result Z :=
  if b =? 0 then Panic "runtime error: integer divide by zero"
  else Ok (to_int (a ÷ b)).
Definition int_rem (a b : Z) : result Z :=
  if b =? 0 then Panic "runtime error: integer divide by zero"
  else Ok (Z.rem a b).

Definition uint_add (a b : Z) : Z := to_uint (a + b).
Definition uint_sub (a b : Z) : Z := to_uint (a - b).
Definition uint_mul (a b : Z) : Z := to_uint (a * b).

(** ** Strings *)

Definition bytes (s : string) : list ascii := list_ascii_of_string s.

(** [len(s)] *)
Definition len (s : string) : Z := Z.of_nat (String.length s).

(** [s[i]], which panics out of range. *)
Definition index (s : string) (i : Z) : result ascii :=
  if (i <? 0) || (len s <=? i) then Panic "runtime error: index out of range"
  else match bytes s !! Z.to_nat i with
       | Some c => Ok c
       | None => Panic "runtime error: index out of range"
       end.

(** [s[a:b]], which panics unless [0 <= a <= b <= len(s)]. *)
Definition slice (s : string) (a b : Z) : result string :=
  if (a <? 0) || (b <? a) || (len s <? b)
  then Panic "runtime error: slice bounds out of range"
  else Ok (string_of_list_ascii
             (take (Z.to_nat (b - a)) (drop (Z.to_nat a) (bytes s)))).

(** [c < '0' || c > '9'] on a byte. *)
Definition not_digit (c : ascii) : bool :=
  (N_of_ascii c <? 48)%N || (57 <? N_of_ascii c)%N.

(** ** strconv *)

Inductive NumError := ErrSyntax | ErrRange.

(** [strconv.Itoa]: the decimal text of an [int], with a leading minus sign for
    a negative one. *)
Definition Itoa (i : Z) : string := NilZero.string_of_int (Z.to_int i).

(** [strconv.Atoi]: an optional sign then decimal digits.  On a syntax error
    the value is 0; on a range error it is the nearest bound of [int]. *)
Definition Atoi (s : string) : Z * option NumError :=
  let '(neg, body) :=
    match s with
    | String "+" rest => (false, rest)
    | String "-" rest => (true, rest)
    | _ => (false, s)
    end in
  match NilZero.uint_of_string body with
  | None => (0, Some ErrSyntax)
  | Some d =>
      let n := Z.of_uint d in
      if neg then
        if n <=? 9223372036854775808 then (- n, None) else (MinInt64, Some ErrRange)
      else
        if n <=? MaxInt64 then (n, None) else (MaxInt64, Some ErrRange)
  end.

(** ** Package token

    Modelled from the spec: the parser state and the error values of package
    [token], whose declarations are not among the sources.  A parser holds the
    flat input buffer and its length; a parse error has one of two kinds and a
    message, kept here as the format used and its arguments; a permutation
    error has the single kind index-out-of-bound. *)

Record InternalParser := { Data : string; DataLen : Z }.

Definition NewInternalParser (data : string) : InternalParser :=
  {| Data := data; DataLen := len data |}.

Definition parser_ok (pars : InternalParser) : Prop :=
  DataLen pars = len (Data pars) ∧ len (Data pars) ≤ MaxInt64.

Inductive ParseErrorType := ParseErrorUnexpectedEOF | ParseErrorUnexpectedData.

Inductive ParserMessage :=
| ExpectedButEOF (v : string)
| ExpectedButGot (v got : string)
| ExpectedRangeButEOF (from to step : Z)
| ExpectedRangeButGot (from to step : Z) (got : string).

Record ParserError := { Message : ParserMessage; ParserError_Type : ParseErrorType }.

Inductive PermutationErrorType := PermutationErrorIndexOutOfBound.

Record PermutationError := { PermutationError_Type : PermutationErrorType }.

(** ** ConstantInt *)

Record ConstantInt := { ConstantInt_value : Z }.

Definition NewConstantInt (value : Z) : ConstantInt :=
  {| ConstantInt_value := value |}.

Definition ConstantInt_Clone (p : ConstantInt) : ConstantInt :=
  {| ConstantInt_value := ConstantInt_value p |}.

Definition ConstantInt_Parse (p : ConstantInt) (pars : InternalParser) (cur : Z)
  : result (Z * list ParserError) :=
  let v := Itoa (ConstantInt_value p) in
  let vLen := len v in
  let nextIndex := int_add vLen cur in
  if DataLen pars <? nextIndex then
    Ok (cur, [ {| Message := ExpectedButEOF v;
                  ParserError_Type := ParseErrorUnexpectedEOF |} ])
  else
    got ← slice (Data pars) cur nextIndex;
    if String.eqb v got then Ok (nextIndex, [])
    else Ok (cur, [ {| Message := ExpectedButGot v got;
                       ParserError_Type := ParseErrorUnexpectedData |} ]).

Definition ConstantInt_Permutations (p : ConstantInt) : Z := 1.

Definition ConstantInt_Permutation (p : ConstantInt) (i : Z)
  : ConstantInt * option PermutationError :=
  let permutations := ConstantInt_Permutations p in
  if (i <? 1) || (permutations <? i) then
    (p, Some {| PermutationError_Type := PermutationErrorIndexOutOfBound |})
  else (p, None).

Definition ConstantInt_PermutationsAll (p : ConstantInt) : Z :=
  ConstantInt_Permutations p.

Definition ConstantInt_String (p : ConstantInt) : string :=
  Itoa (ConstantInt_value p).

(** ** RangeInt *)

Record RangeInt := {
  RangeInt_from : Z;
  RangeInt_to : Z;
  RangeInt_step : Z;
  RangeInt_value : Z
}.

Definition RangeInt_set_value (p : RangeInt) (v : Z) : RangeInt :=
  {| RangeInt_from := RangeInt_from p; RangeInt_to := RangeInt_to p;
     RangeInt_step := RangeInt_step p; RangeInt_value := v |}.

Definition NewRangeInt (from to : Z) : result RangeInt :=
  if to <? from then Panic "TODO implement that From can be bigger than To"
  else Ok {| RangeInt_from := from; RangeInt_to := to; RangeInt_step := 1;
             RangeInt_value := from |}.

Definition NewRangeIntWithStep (from to step : Z) : result RangeInt :=
  if to <? from then Panic "TODO implement that From can be bigger than To"
  else if step <? 1 then Panic "TODO implement 0 and negative step"
  else Ok {| RangeInt_from := from; RangeInt_to := to; RangeInt_step := step;
             RangeInt_value := from |}.

Definition RangeInt_Clone (p : RangeInt) : RangeInt :=
  {| RangeInt_from := RangeInt_from p; RangeInt_to := RangeInt_to p;
     RangeInt_step := RangeInt_step p; RangeInt_value := RangeInt_value p |}.

(** The [for] loop of [RangeInt.Parse]: [i] is the read position and [v] the
    digits taken so far; the loop ends with the pair it leaves behind.  Each
    turn that does not leave the loop moves [i] one byte forward inside the
    buffer, so [fuel] beyond the buffer's length is never used up. *)
Fixpoint RangeInt_Parse_loop (fuel : nat) (p : RangeInt) (pars : InternalParser)
    (i : Z) (v : string) : result (Z * string) :=
  match fuel with
  | O => OutOfFuel
  | S fuel =>
      c ← index (Data pars) i;
      if not_digit c then Ok (i, v)
      else
        let v := String.append v (String c EmptyString) in
        if RangeInt_to p <? fst (Atoi v) then
          v ← slice v 0 (len v - 1);
          Ok (i, v)
        else
          let i := int_add i 1 in
          if i =? DataLen pars then Ok (i, v)
          else RangeInt_Parse_loop fuel p pars i v
  end.

Definition RangeInt_Parse (p : RangeInt) (pars : InternalParser) (cur : Z)
  : result (RangeInt * (Z * list ParserError)) :=
  if cur =? DataLen pars then
    Ok (p, (cur, [ {| Message := ExpectedRangeButEOF (RangeInt_from p)
                                   (RangeInt_to p) (RangeInt_step p);
                      ParserError_Type := ParseErrorUnexpectedEOF |} ]))
  else
    '(i, v) ← RangeInt_Parse_loop (S (String.length (Data pars))) p pars cur EmptyString;
    let i := int_sub i 1 in
    let ci := fst (Atoi v) in
    invalid ←
      (if String.eqb v EmptyString then Ok true
       else if (ci <? RangeInt_from p) || (RangeInt_to p <? ci) then Ok true
       else r ← int_rem ci (RangeInt_step p); Ok (negb (r =? 0)));
    if invalid : bool then
      let i := if i <? cur then cur else i in
      got ← slice (Data pars) cur i;
      Ok (p, (cur, [ {| Message := ExpectedRangeButGot (RangeInt_from p)
                                     (RangeInt_to p) (RangeInt_step p) got;
                        ParserError_Type := ParseErrorUnexpectedData |} ]))
    else
      Ok (RangeInt_set_value p ci, (int_add i 1, [])).

Definition RangeInt_permutation (p : RangeInt) (i : Z) : RangeInt :=
  RangeInt_set_value p
    (int_add (RangeInt_from p) (int_mul (to_int i) (RangeInt_step p))).

Definition RangeInt_Permutations (p : RangeInt) : result Z :=
  q ← int_quo (int_sub (RangeInt_to p) (RangeInt_from p)) (RangeInt_step p);
  let perms := int_add q 1 in
  if perms <? 0 then Ok MaxUint32 else Ok (to_uint perms).

Definition RangeInt_Permutation (p : RangeInt) (i : Z)
  : result (RangeInt * option PermutationError) :=
  permutations ← RangeInt_Permutations p;
  if (i <? 1) || (permutations <? i) then
    Ok (p, Some {| PermutationError_Type := PermutationErrorIndexOutOfBound |})
  else
    Ok (RangeInt_permutation p (uint_sub i 1), None).

Definition RangeInt_PermutationsAll (p : RangeInt) : result Z :=
  RangeInt_Permutations p.

Definition RangeInt_String (p : RangeInt) : string :=
  Itoa (RangeInt_value p).

(** A string of decimal digits only, and one that does not start with a
    needless zero. *)
Definition digits_only (v : string) : Prop :=
  Forall (λ c, not_digit c = false) (bytes v).

Definition no_leading_zero (v : string) : Prop :=
  v = "0"%string ∨ ∃ c rest, v = String c rest ∧ c ≠ "0"%char.

(** ** Package rand

    Modelled from the spec: the random source, a capability that the tokens
    consume and that is not among the sources.  It hands out uniform integers
    and bounded integers; here it is a stream of draws and the number of draws
    used.  As in Go's [math/rand], a bound that is not positive panics. *)

Record Rand := { Rand_source : nat → Z; Rand_used : nat }.

Definition Rand_next (r : Rand) : Z * Rand :=
  (Rand_source r (Rand_used r),
   {| Rand_source := Rand_source r; Rand_used := S (Rand_used r) |}).

Definition Rand_Int (r : Rand) : Z * Rand :=
  let '(x, r) := Rand_next r in (x mod 9223372036854775808, r).

Definition Rand_Intn (r : Rand) (n : Z) : result (Z * Rand) :=
  if n <=? 0 then Panic "invalid argument to Intn"
  else let '(x, r) := Rand_next r in Ok (x mod n, r).

Definition Rand_Int63n (r : Rand) (n : Z) : result (Z * Rand) :=
  if n <=? 0 then Panic "invalid argument to Int63n"
  else let '(x, r) := Rand_next r in Ok (x mod n, r).

(** ** RandomInt *)

Record RandomInt := { RandomInt_value : Z }.

Definition NewRandomInt : RandomInt := {| RandomInt_value := 0 |}.

Definition RandomInt_Clone (p : RandomInt) : RandomInt :=
  {| RandomInt_value := RandomInt_value p |}.

Definition RandomInt_Fuzz (p : RandomInt) (r : Rand) : RandomInt * Rand :=
  let '(x, r) := Rand_Int r in ({| RandomInt_value := x |}, r).

Definition RandomInt_Parse (p : RandomInt) (pars : InternalParser) (cur : Z)
  : result (Z * list ParserError) :=
  Panic "TODO implement".

Definition RandomInt_Permutations (p : RandomInt) : Z := 1.

Definition RandomInt_Permutation (p : RandomInt) (i : Z)
  : RandomInt * option PermutationError :=
  let permutations := RandomInt_Permutations p in
  if (i <? 1) || (permutations <? i) then
    (p, Some {| PermutationError_Type := PermutationErrorIndexOutOfBound |})
  else ({| RandomInt_value := 0 |}, None).

Definition RandomInt_PermutationsAll (p : RandomInt) : Z :=
  RandomInt_Permutations p.

Definition RandomInt_String (p : RandomInt) : string :=
  Itoa (RandomInt_value p).

(** ** Fuzzing of the integer tokens *)

Definition ConstantInt_Fuzz (p : ConstantInt) (r : Rand) : ConstantInt * Rand :=
  (p, r).

Definition RangeInt_Fuzz (p : RangeInt) (r : Rand) : result (RangeInt * Rand) :=
  permutations ← RangeInt_Permutations p;
  '(i, r) ← Rand_Int63n r (to_int permutations);
  Ok (RangeInt_permutation p (to_uint i), r).

(** ** The token store

    A [token.Token] is a pointer to one of the structs; tokens are compared by
    identity ([l.token == oldToken]) and changed in place, so the structs live
    in a store indexed by locations, and a token is a location.  The four
    arithmetic structs have the same fields and the same methods up to the
    operator that [String()] applies; they are one record with the struct's
    type as its [Arithmetic_kind]. *)

Definition loc := positive.

Inductive ArithmeticKind :=
| AddArithmetic | SubArithmetic | MulArithmetic | DivArithmetic.

Record Arithmetic := {
  Arithmetic_kind : ArithmeticKind;
  Arithmetic_a : loc;
  Arithmetic_b : loc
}.

Record Least := {
  Least_n : Z;
  Least_token : loc;
  Least_value : list loc
}.

Inductive Node :=
| NConstantInt (p : ConstantInt)
| NRandomInt (p : RandomInt)
| NRangeInt (p : RangeInt)
| NArithmetic (e : Arithmetic)
| NLeast (l : Least).

Abbreviation heap := (gmap loc Node).

(** [&T{...}]: a new struct at a location not in use. *)
Definition alloc (h : heap) (nd : Node) : loc * heap :=
  let l := fresh (dom h) in (l, <[l := nd]> h).

(** The receiver of a method of [*Arithmetic] or [*Least]; calling through a
    pointer that holds no such struct panics. *)
Definition get_Arithmetic (h : heap) (l : loc) : result Arithmetic :=
  match h !! l with
  | Some (NArithmetic e) => Ok e
  | _ => Panic "runtime error: invalid memory address or nil pointer dereference"
  end.

Definition get_Least (h : heap) (l : loc) : result Least :=
  match h !! l with
  | Some (NLeast x) => Ok x
  | _ => Panic "runtime error: invalid memory address or nil pointer dereference"
  end.

(** ** Arithmetic expressions *)

Definition NewArithmetic (k : ArithmeticKind) (h : heap) (a b : loc) : loc * heap :=
  alloc h (NArithmetic {| Arithmetic_kind := k; Arithmetic_a := a; Arithmetic_b := b |}).

(** The methods below that call a method of a child through the interface take
    that method as their first argument; [Token_Clone] and its like tie the
    knot. *)
Definition Arithmetic_Clone (Clone : heap → loc → result (loc * heap))
    (h : heap) (e : Arithmetic) : result (loc * heap) :=
  '(a, h) ← Clone h (Arithmetic_a e);
  '(b, h) ← Clone h (Arithmetic_b e);
  Ok (alloc h (NArithmetic {| Arithmetic_kind := Arithmetic_kind e;
                              Arithmetic_a := a; Arithmetic_b := b |})).

Definition Arithmetic_Permutations (e : Arithmetic) : Z := 1.

Definition Arithmetic_Permutation (e : Arithmetic) (i : Z) : option PermutationError :=
  let permutations := Arithmetic_Permutations e in
  if (i <? 1) || (permutations <? i) then
    Some {| PermutationError_Type := PermutationErrorIndexOutOfBound |}
  else None.

Definition Arithmetic_PermutationsAll (PermutationsAll : loc → result Z)
    (e : Arithmetic) : result Z :=
  pa ← PermutationsAll (Arithmetic_a e);
  pb ← PermutationsAll (Arithmetic_b e);
  Ok (uint_mul pa pb).

(** [strconv.Atoi] followed by [panic(err)]. *)
Definition Atoi_or_panic (s : string) : result Z :=
  match Atoi s with
  | (v, None) => Ok v
  | (_, Some ErrSyntax) => Panic "strconv.Atoi: invalid syntax"
  | (_, Some ErrRange) => Panic "strconv.Atoi: value out of range"
  end.

Definition Arithmetic_apply (k : ArithmeticKind) (a b : Z) : result Z :=
  match k with
  | AddArithmetic => Ok (int_add a b)
  | SubArithmetic => Ok (int_sub a b)
  | MulArithmetic => Ok (int_mul a b)
  | DivArithmetic => int_quo a b
  end.

Definition Arithmetic_String (String_ : loc → result string) (e : Arithmetic)
  : result string :=
  sa ← String_ (Arithmetic_a e);
  a ← Atoi_or_panic sa;
  sb ← String_ (Arithmetic_b e);
  b ← Atoi_or_panic sb;
  r ← Arithmetic_apply (Arithmetic_kind e) a b;
  Ok (Itoa r).

Definition Arithmetic_InternalReplace (h : heap) (l oldToken newToken : loc)
  : result heap :=
  e ← get_Arithmetic h l;
  let e := if decide (oldToken = Arithmetic_a e)
           then {| Arithmetic_kind := Arithmetic_kind e; Arithmetic_a := newToken;
                   Arithmetic_b := Arithmetic_b e |}
           else e in
  let e := if decide (oldToken = Arithmetic_b e)
           then {| Arithmetic_kind := Arithmetic_kind e; Arithmetic_a := Arithmetic_a e;
                   Arithmetic_b := newToken |}
           else e in
  Ok (<[l := NArithmetic e]> h).

(** ** Least *)

(** [for i := range toks { toks[i] = tok.Clone() }] over the tokens [toks]. *)
Fixpoint clone_each (Clone : heap → loc → result (loc * heap)) (h : heap)
    (toks : list loc) : result (list loc * heap) :=
  match toks with
  | [] => Ok ([], h)
  | tok :: toks =>
      '(c, h) ← Clone h tok;
      '(cs, h) ← clone_each Clone h toks;
      Ok (c :: cs, h)
  end.


Definition Least_Clone (Clone : heap → loc → result (loc * heap)) (h : heap)
    (l : Least) : result (loc * heap) :=
  '(tok, h) ← Clone h (Least_token l);
  '(value, h) ← clone_each Clone h (Least_value l);
  Ok (alloc h (NLeast {| Least_n := Least_n l; Least_token := tok;
                         Least_value := value |})).

Definition Least_Fuzz (Clone : heap → loc → result (loc * heap)) (r : Rand)
    (h : heap) (l : loc) : result (heap * Rand) :=
  self ← get_Least h l;
  '(x, r) ← Rand_Intn r (to_int (int_sub MaxInt64 (Least_n self)));
  let n := int_add x (Least_n self) in
  if n <? 0 then Panic "runtime error: makeslice: len out of range"
  else
    '(toks, h) ← clone_each Clone h (replicate (Z.to_nat n) (Least_token self));
    self ← get_Least h l;
    Ok (<[l := NLeast {| Least_n := Least_n self; Least_token := Least_token self;
                         Least_value := toks |}]> h, r).

Definition Least_Parse (l : Least) (pars : InternalParser) (cur : Z)
  : result (Z * list ParserError) :=
  Panic "TODO implement".

Definition Least_Permutation (l : Least) (i : Z) : result (option PermutationError) :=
  Panic "TODO not implemented".

Definition Least_Permutations (l : Least) : result Z :=
  Panic "TODO this might be hard to fit in 64bit".

Definition Least_PermutationsAll (l : Least) : result Z :=
  Panic "TODO this might be hard to fit in 64bit".

(** The loop of [Least.String]: every element's text is written to the
    buffer in turn. *)
Fixpoint Least_String_loop (String_ : loc → result string) (toks : list loc)
    (buffer : string) : result string :=
  match toks with
  | [] => Ok buffer
  | tok :: toks =>
      s ← String_ tok;
      Least_String_loop String_ toks (String.append buffer s)
  end.

Definition Least_String (String_ : loc → result string) (l : Least) : result string :=
  Least_String_loop String_ (Least_value l) EmptyString.

Definition Least_Len (l : Least) : Z := Z.of_nat (length (Least_value l)).

Definition Least_InternalLen (l : Least) : Z := 1.

(** The loop of [Least.InternalReplace], at index [i] with [count] elements
    still to replace: [l.value[i] = l.token.Clone()]. *)
Fixpoint Least_InternalReplace_loop (Clone : heap → loc → result (loc * heap))
    (h : heap) (l : loc) (i count : nat) : result heap :=
  match count with
  | O => Ok h
  | S count =>
      self ← get_Least h l;
      '(c, h) ← Clone h (Least_token self);
      self ← get_Least h l;
      let h := <[l := NLeast {| Least_n := Least_n self;
                                Least_token := Least_token self;
                                Least_value := <[i := c]> (Least_value self) |}]> h in
      Least_InternalReplace_loop Clone h l (S i) count
  end.

Definition Least_InternalReplace (Clone : heap → loc → result (loc * heap))
    (h : heap) (l oldToken newToken : loc) : result heap :=
  self ← get_Least h l;
  if decide (Least_token self = oldToken) then
    let h := <[l := NLeast {| Least_n := Least_n self; Least_token := newToken;
                              Least_value := Least_value self |}]> h in
    Least_InternalReplace_loop Clone h l 0 (length (Least_value self))
  else Ok h.

Definition Least_IsOptional (l : Least) : bool := Least_n l =? 0.

Definition Least_Activate (Clone : heap → loc → result (loc * heap))
    (h : heap) (l : loc) : result heap :=
  self ← get_Least h l;
  if 0 <? Least_n self then Ok h
  else
    '(c, h) ← Clone h (Least_token self);
    self ← get_Least h l;
    Ok (<[l := NLeast {| Least_n := Least_n self; Least_token := Least_token self;
                         Least_value := [c] |}]> h).

Definition Least_Deactivate (h : heap) (l : loc) : result heap :=
  self ← get_Least h l;
  if 0 <? Least_n self then Ok h
  else
    Ok (<[l := NLeast {| Least_n := Least_n self; Least_token := Least_token self;
                         Least_value := [] |}]> h).

(** ** The Token interface: dynamic dispatch

    A call through the interface looks the struct up and runs the method of
    its type.  [fuel] bounds the depth of the calls that go down to children. *)

Definition nil_dereference {A} : result A :=
  Panic "runtime error: invalid memory address or nil pointer dereference".

Fixpoint Token_Clone (fuel : nat) (h : heap) (l : loc) : result (loc * heap) :=
  match fuel with
  | O => OutOfFuel
  | S fuel =>
      match h !! l with
      | None => nil_dereference
      | Some (NConstantInt p) => Ok (alloc h (NConstantInt (ConstantInt_Clone p)))
      | Some (NRandomInt p) => Ok (alloc h (NRandomInt (RandomInt_Clone p)))
      | Some (NRangeInt p) => Ok (alloc h (NRangeInt (RangeInt_Clone p)))
      | Some (NArithmetic e) => Arithmetic_Clone (Token_Clone fuel) h e
      | Some (NLeast x) => Least_Clone (Token_Clone fuel) h x
      end
  end.

Fixpoint Token_String (fuel : nat) (h : heap) (l : loc) : result string :=
  match fuel with
  | O => OutOfFuel
  | S fuel =>
      match h !! l with
      | None => nil_dereference
      | Some (NConstantInt p) => Ok (ConstantInt_String p)
      | Some (NRandomInt p) => Ok (RandomInt_String p)
      | Some (NRangeInt p) => Ok (RangeInt_String p)
      | Some (NArithmetic e) => Arithmetic_String (Token_String fuel h) e
      | Some (NLeast x) => Least_String (Token_String fuel h) x
      end
  end.

Definition Token_Permutations (h : heap) (l : loc) : result Z :=
  match h !! l with
  | None => nil_dereference
  | Some (NConstantInt p) => Ok (ConstantInt_Permutations p)
  | Some (NRandomInt p) => Ok (RandomInt_Permutations p)
  | Some (NRangeInt p) => RangeInt_Permutations p
  | Some (NArithmetic e) => Ok (Arithmetic_Permutations e)
  | Some (NLeast x) => Least_Permutations x
  end.

Fixpoint Token_PermutationsAll (fuel : nat) (h : heap) (l : loc) : result Z :=
  match fuel with
  | O => OutOfFuel
  | S fuel =>
      match h !! l with
      | None => nil_dereference
      | Some (NConstantInt p) => Ok (ConstantInt_PermutationsAll p)
      | Some (NRandomInt p) => Ok (RandomInt_PermutationsAll p)
      | Some (NRangeInt p) => RangeInt_PermutationsAll p
      | Some (NArithmetic e) =>
          Arithmetic_PermutationsAll (Token_PermutationsAll fuel h) e
      | Some (NLeast x) => Least_PermutationsAll x
      end
  end.

Definition Token_Permutation (h : heap) (l : loc) (i : Z)
  : result (heap * option PermutationError) :=
  match h !! l with
  | None => nil_dereference
  | Some (NConstantInt p) =>
      let '(p, err) := ConstantInt_Permutation p i in
      Ok (<[l := NConstantInt p]> h, err)
  | Some (NRandomInt p) =>
      let '(p, err) := RandomInt_Permutation p i in
      Ok (<[l := NRandomInt p]> h, err)
  | Some (NRangeInt p) =>
      '(p, err) ← RangeInt_Permutation p i;
      Ok (<[l := NRangeInt p]> h, err)
  | Some (NArithmetic e) => Ok (h, Arithmetic_Permutation e i)
  | Some (NLeast x) => err ← Least_Permutation x i; Ok (h, err)
  end.

Definition Token_Parse (h : heap) (l : loc) (pars : InternalParser) (cur : Z)
  : result (heap * (Z * list ParserError)) :=
  match h !! l with
  | None => nil_dereference
  | Some (NConstantInt p) => r ← ConstantInt_Parse p pars cur; Ok (h, r)
  | Some (NRandomInt p) => r ← RandomInt_Parse p pars cur; Ok (h, r)
  | Some (NRangeInt p) =>
      '(p, r) ← RangeInt_Parse p pars cur;
      Ok (<[l := NRangeInt p]> h, r)
  | Some (NArithmetic e) => Panic "TODO implement"
  | Some (NLeast x) => r ← Least_Parse x pars cur; Ok (h, r)
  end.

Definition Token_Fuzz (fuel : nat) (r : Rand) (h : heap) (l : loc)
  : result (heap * Rand) :=
  match h !! l with
  | None => nil_dereference
  | Some (NConstantInt p) =>
      let '(p, r) := ConstantInt_Fuzz p r in Ok (<[l := NConstantInt p]> h, r)
  | Some (NRandomInt p) =>
      let '(p, r) := RandomInt_Fuzz p r in Ok (<[l := NRandomInt p]> h, r)
  | Some (NRangeInt p) =>
      '(p, r) ← RangeInt_Fuzz p r; Ok (<[l := NRangeInt p]> h, r)
  | Some (NArithmetic e) => Ok (h, r)
  | Some (NLeast x) => Least_Fuzz (Token_Clone fuel) r h l
  end.

(** ** Trees

    The shape and the values that a token and everything below it have in a
    store.  [tree_at h l t] holds when [t] is what the store [h] holds from the
    location [l] down. *)

Inductive Tree :=
| TConstantInt (p : ConstantInt)
| TRandomInt (p : RandomInt)
| TRangeInt (p : RangeInt)
| TArithmetic (k : ArithmeticKind) (ta tb : Tree)
| TLeast (n : Z) (ttoken : Tree) (tvalue : list Tree).

Inductive tree_at (h : heap) : loc → Tree → Prop :=
| tree_at_ConstantInt l p :
    h !! l = Some (NConstantInt p) → tree_at h l (TConstantInt p)
| tree_at_RandomInt l p :
    h !! l = Some (NRandomInt p) → tree_at h l (TRandomInt p)
| tree_at_RangeInt l p :
    h !! l = Some (NRangeInt p) → tree_at h l (TRangeInt p)
| tree_at_Arithmetic l e ta tb :
    h !! l = Some (NArithmetic e) →
    tree_at h (Arithmetic_a e) ta → tree_at h (Arithmetic_b e) tb →
    tree_at h l (TArithmetic (Arithmetic_kind e) ta tb)
| tree_at_Least l x ttoken tvalue :
    h !! l = Some (NLeast x) →
    tree_at h (Least_token x) ttoken →
    Forall2 (tree_at h) (Least_value x) tvalue →
    tree_at h l (TLeast (Least_n x) ttoken tvalue).

Fixpoint depth (t : Tree) : nat :=
  match t with
  | TConstantInt _ | TRandomInt _ | TRangeInt _ => 1
  | TArithmetic _ ta tb => S (Nat.max (depth ta) (depth tb))
  | TLeast _ ttoken tvalue =>
      S (Nat.max (depth ttoken)
           ((fix depths (ts : list Tree) : nat :=
               match ts with
               | [] => O
               | t :: ts => Nat.max (depth t) (depths ts)
               end) tvalue))
  end.

(** The text of a tree, as [String()] computes it. *)
Fixpoint Tree_String (t : Tree) : result string :=
  match t with
  | TConstantInt p => Ok (ConstantInt_String p)
  | TRandomInt p => Ok (RandomInt_String p)
  | TRangeInt p => Ok (RangeInt_String p)
  | TArithmetic k ta tb =>
      sa ← Tree_String ta;
      a ← Atoi_or_panic sa;
      sb ← Tree_String tb;
      b ← Atoi_or_panic sb;
      r ← Arithmetic_apply k a b;
      Ok (Itoa r)
  | TLeast _ _ tvalue =>
      (fix texts (ts : list Tree) (buffer : string) : result string :=
         match ts with
         | [] => Ok buffer
         | t :: ts => s ← Tree_String t; texts ts (String.append buffer s)
         end) tvalue EmptyString
  end.

(** The number of choices of a whole tree as a product over the integers,
    without wrap-around: the local count of every node, multiplied.  It is
    meant for the trees that can be enumerated: those without a list, whose
    ranges have a step that is not zero. *)
Fixpoint enumerable (t : Tree) : Prop :=
  match t with
  | TConstantInt _ | TRandomInt _ => True
  | TRangeInt p => RangeInt_step p ≠ 0
  | TArithmetic _ ta tb => enumerable ta ∧ enumerable tb
  | TLeast _ _ _ => False
  end.

Fixpoint Tree_Permutations_product (t : Tree) : Z :=
  match t with
  | TConstantInt p => ConstantInt_Permutations p
  | TRandomInt p => RandomInt_Permutations p
  | TRangeInt p =>
      match RangeInt_Permutations p with Ok n => n | _ => 0 end
  | TArithmetic k ta tb =>
      1 * (Tree_Permutations_product ta * Tree_Permutations_product tb)
  | TLeast _ _ _ => 0
  end.

(** ** Changes of a token in place

    The calls that change a token: choosing a value ([Fuzz], [Permutation]),
    reading one ([Parse]) and rewriting the structure ([InternalReplace],
    [Activate], [Deactivate]); [mutate] runs one of them on the token at a
    location and keeps the store it leaves. *)

Inductive Mutation :=
| MFuzz (fuel : nat) (r : Rand)
| MPermutation (i : Z)
| MParse (pars : InternalParser) (cur : Z)
| MArithmeticInternalReplace (oldToken newToken : loc)
| MLeastInternalReplace (fuel : nat) (oldToken newToken : loc)
| MActivate (fuel : nat)
| MDeactivate.

Definition mutate (m : Mutation) (h : heap) (l : loc) : result heap :=
  match m with
  | MFuzz fuel r => '(h, _) ← Token_Fuzz fuel r h l; Ok h
  | MPermutation i => '(h, _) ← Token_Permutation h l i; Ok h
  | MParse pars cur => '(h, _) ← Token_Parse h l pars cur; Ok h
  | MArithmeticInternalReplace oldToken newToken =>
      Arithmetic_InternalReplace h l oldToken newToken
  | MLeastInternalReplace fuel oldToken newToken =>
      Least_InternalReplace (Token_Clone fuel) h l oldToken newToken
  | MActivate fuel => Least_Activate (Token_Clone fuel) h l
  | MDeactivate => Least_Deactivate h l
  end.

Fixpoint mutate_each (ms : list (loc * Mutation)) (h : heap) : result heap :=
  match ms with
  | [] => Ok h
  | (l, m) :: ms => h ← mutate m h l; mutate_each ms h
  end.

(** ** The list views of the tokens

    Modelled from the spec: the error value of package [lists], whose
    declaration is not among the sources; it has the single kind
    out-of-bound.  [Get] and [InternalGet] return a token or that error. *)

Inductive ListErrorType := ListErrorOutOfBound.

Record ListError := { ListError_Type : ListErrorType }.

Definition Arithmetic_Get (e : Arithmetic) (i : Z) : loc + ListError :=
  if i =? 0 then inl (Arithmetic_a e)
  else if i =? 1 then inl (Arithmetic_b e)
  else inr {| ListError_Type := ListErrorOutOfBound |}.

Definition Arithmetic_Len (e : Arithmetic) : Z := 2.

Definition Arithmetic_InternalGet (e : Arithmetic) (i : Z) : loc + ListError :=
  Arithmetic_Get e i.

Definition Arithmetic_InternalLen (e : Arithmetic) : Z := Arithmetic_Len e.

(** [InternalLogicalRemove] answers [nil] ([None]) or the receiver [l]. *)
Definition Arithmetic_InternalLogicalRemove (l : loc) (e : Arithmetic) (tok : loc)
  : option loc :=
  if bool_decide (tok = Arithmetic_a e) || bool_decide (tok = Arithmetic_b e)
  then None else Some l.

Definition Least_Get (x : Least) (i : Z) : result (loc + ListError) :=
  if (i <? 0) || (Z.of_nat (length (Least_value x)) <=? i)
  then Ok (inr {| ListError_Type := ListErrorOutOfBound |})
  else match Least_value x !! Z.to_nat i with
       | Some tok => Ok (inl tok)
       | None => Panic "runtime error: index out of range"
       end.

Definition Least_InternalGet (x : Least) (i : Z) : loc + ListError :=
  if negb (i =? 0) then inr {| ListError_Type := ListErrorOutOfBound |}
  else inl (Least_token x).

Definition Least_InternalLogicalRemove (l : loc) (x : Least) (tok : loc)
  : option loc :=
  if bool_decide (Least_token x = tok) then None else Some l.

(** ** FuzzAll *)






(** ** Integer expressions

    A tree of arithmetic tokens over integer tokens whose values are in the
    range of [int], and the integer it denotes, computed as Go does: with
    wrap-around, the left operand first, and a panic on a division by zero. *)

Fixpoint integer_expression (t : Tree) : Prop :=
  match t with
  | TConstantInt p => is_int (ConstantInt_value p)
  | TRandomInt p => is_int (RandomInt_value p)
  | TRangeInt p => is_int (RangeInt_value p)
  | TArithmetic _ ta tb => integer_expression ta ∧ integer_expression tb
  | TLeast _ _ _ => False
  end.

Fixpoint Tree_eval (t : Tree) : result Z :=
  match t with
  | TConstantInt p => Ok (ConstantInt_value p)
  | TRandomInt p => Ok (RandomInt_value p)
  | TRangeInt p => Ok (RangeInt_value p)
  | TArithmetic k ta tb =>
      a ← Tree_eval ta;
      b ← Tree_eval tb;
      Arithmetic_apply k a b
  | TLeast _ _ _ => Panic "not an integer expression"
  end.

(** ** Tokens apart from a store

    [apart_from h0 h]: the store [h] extends [h0], and the tokens of [h] that
    [h0] does not hold point only to tokens that [h0] does not hold. *)



(** ** The values of a range

    [RangeInt_on_grid p]: the bounds are in order, the step is positive and the
    current value is one of [from], [from + step], [from + 2 * step], ... up to
    [to].  [RangeInt_no_overflow p]: neither [to - from] nor the number of
    values leaves the range of [int]. *)

Definition RangeInt_on_grid (p : RangeInt) : Prop :=
  RangeInt_from p ≤ RangeInt_to p ∧ 1 ≤ RangeInt_step p ∧
  RangeInt_from p ≤ RangeInt_value p ≤ RangeInt_to p ∧
  (RangeInt_value p - RangeInt_from p) mod RangeInt_step p = 0.

Definition RangeInt_no_overflow (p : RangeInt) : Prop :=
  is_int (RangeInt_from p) ∧ is_int (RangeInt_to p) ∧
  RangeInt_to p - RangeInt_from p ≤ MaxInt64 ∧
  (RangeInt_to p - RangeInt_from p) / RangeInt_step p + 1 ≤ MaxInt64.


(** ** The number a run of digits spells *)

(** The value of a digit byte, and the number that the digits of [s] spell
    when read from left to right after the number [acc]. *)
Definition digit_value (c : ascii) : Z := Z.of_N (N_of_ascii c) - 48.

Fixpoint digits_value (s : string) (acc : Z) : Z :=
  match s with
  | EmptyString => acc
  | String c s => digits_value s (10 * acc + digit_value c)
  end.

(** * Properties *)

Example RangeInt_Parse_ex1 :
  (p ← NewRangeIntWithStep 0 5 1; RangeInt_Parse p (NewInternalParser "12") 0)
  = Ok ({| RangeInt_from := 0; RangeInt_to := 5; RangeInt_step := 1; RangeInt_value := 1 |},
        (1, [])).
Proof. reflexivity. Qed.

(** ** Integer conversions *)

Lemma to_int_id z : is_int z → to_int z = z.
Proof.
  unfold is_int, to_int, MinInt64, MaxInt64. intros Hz.
  rewrite Z.mod_small; lia.
Qed.

Lemma to_int_is_int z : is_int (to_int z).
Proof.
  unfold is_int, to_int, MinInt64, MaxInt64.
  pose proof (Z.mod_pos_bound (z + 9223372036854775808) 18446744073709551616).
  lia.
Qed.

Lemma to_int_parity z : ∃ k, to_int z = z + 2 * k.
Proof.
  unfold to_int.
  exists (- (9223372036854775808
             * ((z + 9223372036854775808) / 18446744073709551616))).
  rewrite Z.mod_eq by lia. lia.
Qed.

Lemma to_uint_id z : is_uint z → to_uint z = z.
Proof.
  unfold is_uint, to_uint, MaxUint64. intros Hz.
  rewrite Z.mod_small; lia.
Qed.

Lemma to_uint_is_uint z : is_uint (to_uint z).
Proof.
  unfold is_uint, to_uint, MaxUint64.
  pose proof (Z.mod_pos_bound z 18446744073709551616). lia.
Qed.

(** ** Strings and decimal text *)

Lemma length_bytes s : length (bytes s) = String.length s.
Proof. unfold bytes. induction s as [|c s IH]; simpl; congruence. Qed.

Lemma len_nonneg s : 0 ≤ len s.
Proof. unfold len. lia. Qed.

Lemma slice_whole s : slice s 0 (len s) = Ok s.
Proof.
  unfold slice. pose proof (len_nonneg s).
  replace (0 <? 0) with false by reflexivity.
  replace (len s <? 0) with false by (symmetry; apply Z.ltb_ge; lia).
  rewrite Z.ltb_irrefl. simpl. f_equal.
  rewrite Z.sub_0_r. unfold len. rewrite Nat2Z.id, <- length_bytes.
  rewrite firstn_all. apply string_of_list_ascii_of_string.
Qed.

Lemma nb_digits_double d :
  (Decimal.nb_digits (Decimal.Little.double d) ≤ S (Decimal.nb_digits d))%nat ∧
  (Decimal.nb_digits (Decimal.Little.succ_double d) ≤ S (Decimal.nb_digits d))%nat.
Proof.
  induction d as [|d [IH1 IH2]|d [IH1 IH2]|d [IH1 IH2]|d [IH1 IH2]|d [IH1 IH2]
                  |d [IH1 IH2]|d [IH1 IH2]|d [IH1 IH2]|d [IH1 IH2]|d [IH1 IH2]];
    simpl; lia.
Qed.

Lemma nb_digits_to_little_uint p :
  (Decimal.nb_digits (Pos.to_little_uint p) ≤ Pos.size_nat p)%nat.
Proof.
  induction p as [p IH|p IH|]; simpl.
  - pose proof (proj2 (nb_digits_double (Pos.to_little_uint p))). lia.
  - pose proof (proj1 (nb_digits_double (Pos.to_little_uint p))). lia.
  - lia.
Qed.

Lemma length_string_of_uint d :
  String.length (NilEmpty.string_of_uint d) = Decimal.nb_digits d.
Proof. induction d; simpl; congruence. Qed.

Lemma length_NilZero_string_of_uint d :
  (String.length (NilZero.string_of_uint d) ≤ S (Decimal.nb_digits d))%nat.
Proof.
  unfold NilZero.string_of_uint.
  destruct d; try (rewrite length_string_of_uint; lia). simpl. lia.
Qed.

Lemma size_nat_bound p :
  ∀ n, Z.pos p < 2 ^ Z.of_nat n → (Pos.size_nat p ≤ n)%nat.
Proof.
  induction p as [p IH|p IH|]; intros n H; simpl.
  - destruct n as [|n]; [simpl in H; lia|].
    rewrite Nat2Z.inj_succ, Z.pow_succ_r in H by lia.
    rewrite Pos2Z.inj_xI in H. apply le_n_S, IH. lia.
  - destruct n as [|n]; [simpl in H; lia|].
    rewrite Nat2Z.inj_succ, Z.pow_succ_r in H by lia.
    rewrite Pos2Z.inj_xO in H. apply le_n_S, IH. lia.
  - destruct n as [|n]; [simpl in H; lia|lia].
Qed.

Lemma length_string_of_pos p :
  Z.pos p ≤ 9223372036854775808 →
  (String.length (NilZero.string_of_uint (Pos.to_uint p)) ≤ 65)%nat.
Proof.
  intros Hp.
  etransitivity; [apply length_NilZero_string_of_uint|].
  unfold Pos.to_uint. rewrite DecimalFacts.nb_digits_rev.
  pose proof (nb_digits_to_little_uint p) as Hn.
  assert (Pos.size_nat p ≤ 64)%nat; [|lia].
  apply size_nat_bound.
  replace (2 ^ Z.of_nat 64) with 18446744073709551616 by (by vm_compute).
  lia.
Qed.

Lemma Itoa_len v : is_int v → 1 ≤ len (Itoa v) ≤ 66.
Proof.
  unfold is_int, MinInt64, MaxInt64, Itoa, len. intros Hv.
  destruct v as [|p|p]; simpl.
  - lia.
  - pose proof (length_string_of_pos p ltac:(lia)).
    pose proof (Unsigned.to_uint_nonnil p) as Hnil.
    unfold NilZero.string_of_uint in *.
    destruct (Pos.to_uint p); simpl in *; try congruence; lia.
  - pose proof (length_string_of_pos p ltac:(lia)). lia.
Qed.

(** ** ConstantInt.Parse *)

(** C6. For a constant integer with value [v]: parsing the exact decimal text
    of [v] from cursor 0 succeeds, returns the cursor [len(text)] and reports no
    error; parsing a buffer that ends before the whole text could be read fails
    with an unexpected-EOF error; parsing a buffer that is long enough but whose
    bytes at the cursor differ from the text fails with an unexpected-data
    error; both failures return the cursor they were given. *)
Theorem ConstantInt_Parse_spec (p : ConstantInt) :
  is_int (ConstantInt_value p) →
  let text := Itoa (ConstantInt_value p) in
  ConstantInt_Parse p (NewInternalParser text) 0 = Ok (len text, []) ∧
  (∀ data cur,
      0 ≤ cur → cur + len text ≤ MaxInt64 → len data < cur + len text →
      ConstantInt_Parse p (NewInternalParser data) cur
      = Ok (cur, [ {| Message := ExpectedButEOF text;
                      ParserError_Type := ParseErrorUnexpectedEOF |} ])) ∧
  (∀ data cur,
      0 ≤ cur → cur + len text ≤ MaxInt64 → cur + len text ≤ len data →
      slice data cur (cur + len text) ≠ Ok text →
      ∃ got, slice data cur (cur + len text) = Ok got ∧
        ConstantInt_Parse p (NewInternalParser data) cur
        = Ok (cur, [ {| Message := ExpectedButGot text got;
                        ParserError_Type := ParseErrorUnexpectedData |} ])).
Proof.
  intros Hv text. pose proof (Itoa_len _ Hv) as Hlen. fold text in Hlen.
  assert (Hadd : ∀ cur, 0 ≤ cur → cur + len text ≤ MaxInt64 →
                        int_add (len text) cur = cur + len text).
  { intros cur H0 H1. unfold int_add. rewrite to_int_id; [lia|].
    unfold is_int, MinInt64, MaxInt64 in *. lia. }
  split; [|split].
  - unfold ConstantInt_Parse. fold text. cbn [Data DataLen NewInternalParser].
    rewrite Hadd by (unfold MaxInt64; lia). rewrite Z.add_0_l.
    rewrite Z.ltb_irrefl, slice_whole. cbn. rewrite String.eqb_refl. reflexivity.
  - intros data cur H0 H1 H2. unfold ConstantInt_Parse. fold text.
    cbn [Data DataLen NewInternalParser]. rewrite Hadd by assumption.
    replace (len data <? cur + len text) with true
      by (symmetry; apply Z.ltb_lt; lia).
    reflexivity.
  - intros data cur H0 H1 H2 Hne. unfold ConstantInt_Parse. fold text.
    cbn [Data DataLen NewInternalParser]. rewrite Hadd by assumption.
    replace (len data <? cur + len text) with false
      by (symmetry; apply Z.ltb_ge; lia).
    destruct (slice data cur (cur + len text)) as [got|msg|] eqn:Hs.
    + exists got. split; [reflexivity|]. cbn.
      destruct (String.eqb text got) eqn:He; [|reflexivity].
      apply String.eqb_eq in He. subst got. congruence.
    + unfold slice in Hs.
      replace (cur <? 0) with false in Hs by (symmetry; apply Z.ltb_ge; lia).
      replace (cur + len text <? cur) with false in Hs
        by (symmetry; apply Z.ltb_ge; lia).
      replace (len data <? cur + len text) with false in Hs
        by (symmetry; apply Z.ltb_ge; lia).
      discriminate.
    + unfold slice in Hs. destruct (_ || _); discriminate.
Qed.

Lemma ConstantInt_Parse_spec_witness :
  let p := NewConstantInt (-42) in
  ConstantInt_Parse p (NewInternalParser "-42") 0 = Ok (3, []) ∧
  ConstantInt_Parse p (NewInternalParser "x-4") 1
  = Ok (1, [ {| Message := ExpectedButEOF "-42";
                ParserError_Type := ParseErrorUnexpectedEOF |} ]) ∧
  ∃ got, slice "-43" 0 3 = Ok got ∧
    ConstantInt_Parse p (NewInternalParser "-43") 0
    = Ok (0, [ {| Message := ExpectedButGot "-42" got;
                  ParserError_Type := ParseErrorUnexpectedData |} ]).
Proof.
  intros p.
  assert (Hv : is_int (ConstantInt_value p))
    by (unfold is_int, MinInt64, MaxInt64; simpl; lia).
  destruct (ConstantInt_Parse_spec p Hv) as (H1 & H2 & H3).
  split; [exact H1|split].
  - apply (H2 "x-4" 1); vm_compute; congruence.
  - apply (H3 "-43" 0); vm_compute; congruence.
Defined.

(** ** RangeInt.Permutations and RangeInt.Permutation *)

(** C5. On a ranged integer (its step is not zero, as both constructors
    ensure), [Permutation(0)] and [Permutation(Permutations()+1)] return an
    index-out-of-bound error and leave the node, hence its current value, as it
    was. *)
Theorem RangeInt_Permutation_out_of_bound (p : RangeInt) :
  RangeInt_step p ≠ 0 →
  ∃ n, RangeInt_Permutations p = Ok n ∧
    RangeInt_Permutation p 0
    = Ok (p, Some {| PermutationError_Type := PermutationErrorIndexOutOfBound |}) ∧
    RangeInt_Permutation p (uint_add n 1)
    = Ok (p, Some {| PermutationError_Type := PermutationErrorIndexOutOfBound |}).
Proof.
  intros Hstep. unfold RangeInt_Permutation, RangeInt_Permutations, int_quo.
  destruct (Z.eqb_spec (RangeInt_step p) 0) as [|_]; [contradiction|].
  cbn [mbind result_bind].
  set (perms := int_add _ 1).
  assert (Hp : is_int perms) by apply to_int_is_int.
  unfold is_int, MinInt64, MaxInt64 in Hp.
  destruct (Z.ltb_spec perms 0) as [Hneg|Hpos].
  - exists MaxUint32. split; [reflexivity|]. split; reflexivity.
  - exists (to_uint perms). split; [reflexivity|].
    rewrite to_uint_id by (unfold is_uint, MaxUint64; lia).
    split; [reflexivity|].
    unfold uint_add. rewrite to_uint_id by (unfold is_uint, MaxUint64; lia).
    cbn [mbind result_bind].
    replace (perms <? perms + 1) with true by (symmetry; apply Z.ltb_lt; lia).
    destruct (perms + 1 <? 1); reflexivity.
Qed.

Lemma RangeInt_Permutation_out_of_bound_witness :
  let p := {| RangeInt_from := 1; RangeInt_to := 10; RangeInt_step := 2;
              RangeInt_value := 7 |} in
  ∃ n, RangeInt_Permutations p = Ok n ∧
    RangeInt_Permutation p 0
    = Ok (p, Some {| PermutationError_Type := PermutationErrorIndexOutOfBound |}) ∧
    RangeInt_Permutation p (uint_add n 1)
    = Ok (p, Some {| PermutationError_Type := PermutationErrorIndexOutOfBound |}).
Proof.
  intros p. apply (RangeInt_Permutation_out_of_bound p). simpl. lia.
Defined.

(** C4, as stated, fails when [to - from] leaves the range of [int]: the
    subtraction wraps and the guard on a negative count answers the sentinel
    [math.MaxUint32].  From -1 to [MaxInt64] with step 1 there are 2^63 + 1
    values, and [Permutations()] is 4294967295. *)
Lemma RangeInt_Permutations_wraps :
  RangeInt_Permutations
    {| RangeInt_from := -1; RangeInt_to := 9223372036854775807;
       RangeInt_step := 1; RangeInt_value := -1 |} = Ok 4294967295 ∧
  (9223372036854775807 - -1) / 1 + 1 = 9223372036854775809.
Proof. split; vm_compute; reflexivity. Qed.

(** C4 (amended). For a ranged integer with bounds [from <= to] and step
    [s >= 1] such that neither [to - from] nor the count
    [(to - from) / s + 1] exceeds [MaxInt64]: [Permutations()] is
    [(to - from) / s + 1], and for every [i] from 1 to that count
    [Permutation(i)] succeeds, keeps the bounds and the step, and sets the value
    to [from + (i - 1) * s], which is what [String()] then renders, lies in
    [[from, to]] and is a multiple of [s] away from [from]. *)
Theorem RangeInt_Permutation_in_range (p : RangeInt) :
  let from := RangeInt_from p in
  let to := RangeInt_to p in
  let s := RangeInt_step p in
  is_int from → is_int to → from ≤ to → 1 ≤ s →
  to - from ≤ MaxInt64 → (to - from) / s + 1 ≤ MaxInt64 →
  RangeInt_Permutations p = Ok ((to - from) / s + 1) ∧
  ∀ i, 1 ≤ i ≤ (to - from) / s + 1 →
    ∃ p', RangeInt_Permutation p i = Ok (p', None) ∧
      RangeInt_from p' = from ∧ RangeInt_to p' = to ∧ RangeInt_step p' = s ∧
      RangeInt_value p' = from + (i - 1) * s ∧
      RangeInt_String p' = Itoa (from + (i - 1) * s) ∧
      from ≤ RangeInt_value p' ≤ to ∧
      (RangeInt_value p' - from) mod s = 0.
Proof.
  intros from to s Hfrom Hto Hle Hs Hd Hn.
  unfold is_int, MinInt64, MaxInt64 in *.
  assert (Hq : 0 ≤ (to - from) / s) by (apply Z.div_pos; lia).
  assert (Hm : s * ((to - from) / s) ≤ to - from) by (apply Z.mul_div_le; lia).
  assert (Hperms : RangeInt_Permutations p = Ok ((to - from) / s + 1)).
  { unfold RangeInt_Permutations, int_quo. fold from to s.
    destruct (Z.eqb_spec s 0) as [|_]; [lia|]. cbn [mbind result_bind].
    unfold int_sub, int_add.
    rewrite (to_int_id (to - from)) by (unfold is_int, MinInt64, MaxInt64; lia).
    rewrite Z.quot_div_nonneg by lia.
    rewrite (to_int_id ((to - from) / s))
      by (unfold is_int, MinInt64, MaxInt64; lia).
    rewrite (to_int_id ((to - from) / s + 1))
      by (unfold is_int, MinInt64, MaxInt64; lia).
    destruct (Z.ltb_spec ((to - from) / s + 1) 0); [lia|].
    rewrite to_uint_id by (unfold is_uint, MaxUint64; lia). reflexivity. }
  split; [exact Hperms|]. intros i Hi.
  unfold RangeInt_Permutation. rewrite Hperms. cbn [mbind result_bind].
  replace (i <? 1) with false by (symmetry; apply Z.ltb_ge; lia).
  replace ((to - from) / s + 1 <? i) with false by (symmetry; apply Z.ltb_ge; lia).
  cbn [orb]. eexists. split; [reflexivity|].
  assert (Hi1 : 0 ≤ (i - 1) * s ≤ to - from) by nia.
  assert (Hval : RangeInt_value (RangeInt_permutation p (uint_sub i 1))
                 = from + (i - 1) * s).
  { unfold RangeInt_permutation, RangeInt_set_value. cbn [RangeInt_value].
    fold from s. unfold uint_sub, int_add, int_mul.
    rewrite (to_uint_id (i - 1)) by (unfold is_uint, MaxUint64; lia).
    rewrite (to_int_id (i - 1)) by (unfold is_int, MinInt64, MaxInt64; lia).
    rewrite (to_int_id ((i - 1) * s)) by (unfold is_int, MinInt64, MaxInt64; lia).
    apply to_int_id. unfold is_int, MinInt64, MaxInt64. lia. }
  unfold RangeInt_String. rewrite Hval.
  repeat split; try reflexivity; try lia.
  replace (from + (i - 1) * s - from) with ((i - 1) * s) by lia.
  apply Z.mod_mul. lia.
Qed.

Lemma RangeInt_Permutation_in_range_witness :
  let p := {| RangeInt_from := 1; RangeInt_to := 10; RangeInt_step := 2;
              RangeInt_value := 1 |} in
  RangeInt_Permutations p = Ok 5 ∧
  ∃ p', RangeInt_Permutation p 3 = Ok (p', None) ∧
    RangeInt_value p' = 5 ∧ RangeInt_String p' = "5".
Proof.
  intros p.
  assert (H : RangeInt_Permutations p = Ok ((10 - 1) / 2 + 1) ∧
    ∀ i, 1 ≤ i ≤ (10 - 1) / 2 + 1 →
    ∃ p', RangeInt_Permutation p i = Ok (p', None) ∧
      RangeInt_from p' = 1 ∧ RangeInt_to p' = 10 ∧ RangeInt_step p' = 2 ∧
      RangeInt_value p' = 1 + (i - 1) * 2 ∧
      RangeInt_String p' = Itoa (1 + (i - 1) * 2) ∧
      1 ≤ RangeInt_value p' ≤ 10 ∧
      (RangeInt_value p' - 1) mod 2 = 0).
  { apply (RangeInt_Permutation_in_range p);
      vm_compute; repeat split; discriminate. }
  change ((10 - 1) / 2 + 1) with 5 in H.
  destruct H as [H1 H2]. split; [exact H1|].
  destruct (H2 3 ltac:(lia)) as (p' & Hp & _ & _ & _ & Hv & Hs & _).
  exists p'. split; [exact Hp|]. split; [exact Hv|exact Hs].
Defined.

(** ** Indexing and slicing *)

Lemma bytes_append s1 s2 : bytes (String.append s1 s2) = bytes s1 ++ bytes s2.
Proof. unfold bytes. induction s1 as [|c s1 IH]; simpl; [reflexivity|]. by rewrite IH. Qed.

Lemma string_of_bytes s : string_of_list_ascii (bytes s) = s.
Proof. apply string_of_list_ascii_of_string. Qed.

Lemma bytes_of_string l : bytes (string_of_list_ascii l) = l.
Proof. apply list_ascii_of_string_of_list_ascii. Qed.

Lemma string_of_list_ascii_snoc l c :
  string_of_list_ascii (l ++ [c])
  = String.append (string_of_list_ascii l) (String c EmptyString).
Proof. induction l as [|x l IH]; simpl; [reflexivity|]. by rewrite IH. Qed.

Lemma len_bytes s : len s = Z.of_nat (length (bytes s)).
Proof. unfold len. by rewrite length_bytes. Qed.

Lemma index_Ok s i c :
  index s i = Ok c ↔ (0 ≤ i < len s ∧ bytes s !! Z.to_nat i = Some c).
Proof.
  unfold index. split.
  - destruct (Z.ltb_spec i 0); [discriminate|].
    destruct (Z.leb_spec (len s) i); [discriminate|]. cbn [orb].
    destruct (bytes s !! Z.to_nat i) eqn:E; [|discriminate].
    intros [= ->]. split; [lia|reflexivity].
  - intros [Hi Hc]. rewrite Hc.
    destruct (Z.ltb_spec i 0); [lia|].
    destruct (Z.leb_spec (len s) i); [lia|]. reflexivity.
Qed.

Lemma index_total s i : 0 ≤ i < len s → ∃ c, index s i = Ok c.
Proof.
  intros Hi. destruct (bytes s !! Z.to_nat i) as [c|] eqn:E.
  - exists c. apply index_Ok. done.
  - apply lookup_ge_None in E. rewrite len_bytes in Hi. lia.
Qed.

Lemma slice_Ok s a b :
  0 ≤ a → a ≤ b → b ≤ len s →
  slice s a b
  = Ok (string_of_list_ascii (take (Z.to_nat (b - a)) (drop (Z.to_nat a) (bytes s)))).
Proof.
  intros H0 H1 H2. unfold slice.
  destruct (Z.ltb_spec a 0); [lia|]. destruct (Z.ltb_spec b a); [lia|].
  destruct (Z.ltb_spec (len s) b); [lia|]. reflexivity.
Qed.

Lemma slice_inv s a b v :
  slice s a b = Ok v →
  0 ≤ a ∧ a ≤ b ∧ b ≤ len s ∧
  v = string_of_list_ascii (take (Z.to_nat (b - a)) (drop (Z.to_nat a) (bytes s))).
Proof.
  unfold slice.
  destruct (Z.ltb_spec a 0); [discriminate|]. destruct (Z.ltb_spec b a); [discriminate|].
  destruct (Z.ltb_spec (len s) b); [discriminate|]. cbn [orb].
  intros [= <-]. repeat split; lia.
Qed.

Lemma slice_empty s a : 0 ≤ a → a ≤ len s → slice s a a = Ok EmptyString.
Proof.
  intros H0 H1. rewrite slice_Ok by lia. by rewrite Z.sub_diag.
Qed.

(** Reading one more byte extends the slice by that byte. *)
Lemma slice_snoc s a i c v :
  a ≤ i → index s i = Ok c → slice s a i = Ok v →
  slice s a (i + 1) = Ok (String.append v (String c EmptyString)).
Proof.
  intros Hai [Hi Hc]%index_Ok (H0 & _ & _ & ->)%slice_inv.
  rewrite slice_Ok by lia. f_equal.
  replace (Z.to_nat (i + 1 - a)) with (S (Z.to_nat (i - a))) by lia.
  rewrite (take_S_r _ _ c).
  - apply string_of_list_ascii_snoc.
  - rewrite lookup_drop. rewrite <- Hc. f_equal. lia.
Qed.

(** [v[:len(v)-1]] removes the byte that was appended last. *)
Lemma slice_remove_last v c :
  let v1 := String.append v (String c EmptyString) in
  slice v1 0 (len v1 - 1) = Ok v.
Proof.
  intros v1.
  assert (Hl : len v1 = len v + 1).
  { unfold v1. rewrite !len_bytes, bytes_append, length_app. simpl. lia. }
  pose proof (len_nonneg v).
  rewrite slice_Ok by lia. f_equal. rewrite Hl.
  unfold v1. rewrite bytes_append.
  change (Z.to_nat 0) with 0%nat. rewrite drop_0.
  replace (Z.to_nat (len v + 1 - 1 - 0)) with (length (bytes v))
    by (rewrite len_bytes; lia).
  rewrite take_app_length. apply string_of_bytes.
Qed.

(** ** Decimal digits, [Atoi] and [Itoa] *)

Lemma uint_of_char_digit c d :
  not_digit c = false →
  ∃ d', uint_of_char c (Some d) = Some d' ∧ d' ≠ Decimal.Nil ∧
        (c ≠ "0"%char → Decimal.unorm d' = d') ∧
        c ≠ "+"%char ∧ c ≠ "-"%char.
Proof.
  destruct c as [[] [] [] [] [] [] [] []]; intros H;
    try (vm_compute in H; discriminate H);
    (eexists; split; [reflexivity|];
     split; [discriminate|]; split; [|split; discriminate]);
    first [reflexivity | intros Hc; exfalso; apply Hc; reflexivity].
Qed.

Lemma uint_of_string_digits v :
  digits_only v → ∃ d, NilEmpty.uint_of_string v = Some d.
Proof.
  unfold digits_only. induction v as [|c v IH]; simpl; intros H.
  - eexists; reflexivity.
  - inversion H as [|? ? Hc Hv]; subst. destruct (IH Hv) as [d Hd].
    rewrite Hd. destruct (uint_of_char_digit c d Hc) as (d' & Hd' & _).
    eauto.
Qed.

Lemma Atoi_unsigned c rest :
  c ≠ "+"%char → c ≠ "-"%char →
  Atoi (String c rest)
  = match NilEmpty.uint_of_string (String c rest) with
    | None => (0, Some ErrSyntax)
    | Some d =>
        if Z.of_uint d <=? MaxInt64 then (Z.of_uint d, None)
        else (MaxInt64, Some ErrRange)
    end.
Proof.
  intros Hp Hm.
  destruct c as [[] [] [] [] [] [] [] []];
    first [reflexivity | exfalso; apply Hp; reflexivity
          | exfalso; apply Hm; reflexivity].
Qed.

(** On a non-empty run of digits [Atoi] reads the number, clamped to
    [MaxInt64]; it is never negative. *)
Lemma Atoi_digits v :
  digits_only v → v ≠ EmptyString →
  ∃ d, NilEmpty.uint_of_string v = Some d ∧ d ≠ Decimal.Nil ∧
    Atoi v = (if Z.of_uint d <=? MaxInt64 then (Z.of_uint d, None)
              else (MaxInt64, Some ErrRange)).
Proof.
  intros Hv Hne. destruct v as [|c rest]; [congruence|].
  unfold digits_only in Hv. simpl in Hv.
  inversion Hv as [|? ? Hc Hrest]; subst.
  destruct (uint_of_string_digits rest Hrest) as [d0 Hd0].
  destruct (uint_of_char_digit c d0 Hc) as (d & Hd & Hnil & _ & Hp & Hm).
  exists d. rewrite (Atoi_unsigned c rest Hp Hm). simpl. rewrite Hd0, Hd. done.
Qed.

Lemma Atoi_digits_nonneg v : digits_only v → 0 ≤ fst (Atoi v).
Proof.
  intros Hv. destruct v as [|c rest]; [vm_compute; congruence|].
  destruct (Atoi_digits _ Hv ltac:(discriminate)) as (d & _ & _ & ->).
  destruct (Z.leb_spec (Z.of_uint d) MaxInt64); simpl.
  - unfold Z.of_uint. lia.
  - unfold MaxInt64. lia.
Qed.

(** [Itoa] gives back a run of digits that [Atoi] read without error, when the
    run has no needless leading zero. *)
Lemma Itoa_Atoi v :
  digits_only v → no_leading_zero v → snd (Atoi v) = None →
  Itoa (fst (Atoi v)) = v.
Proof.
  intros Hv [->|(c & rest & -> & Hc)] Herr; [reflexivity|].
  unfold digits_only in Hv. simpl in Hv.
  inversion Hv as [|? ? Hdc Hrest]; subst.
  destruct (uint_of_string_digits rest Hrest) as [d0 Hd0].
  destruct (uint_of_char_digit c d0 Hdc) as (d & Hd & Hnil & Hnorm & Hp & Hm).
  rewrite (Atoi_unsigned c rest Hp Hm) in *.
  cbn [NilEmpty.uint_of_string] in *. rewrite Hd0 in *. rewrite Hd in *.
  destruct (Z.leb_spec (Z.of_uint d) MaxInt64); [|discriminate].
  cbn [fst]. unfold Itoa. change (Z.of_uint d) with (Z.of_int (Decimal.Pos d)).
  rewrite DecimalZ.to_of. cbn [Decimal.norm]. rewrite (Hnorm Hc).
  apply NilZero.sus. unfold NilZero.uint_of_string.
  cbn [NilEmpty.uint_of_string]. by rewrite Hd0, Hd.
Qed.

(** ** RangeInt.Parse *)

Lemma digits_only_snoc v c :
  digits_only v → not_digit c = false →
  digits_only (String.append v (String c EmptyString)).
Proof.
  unfold digits_only. intros Hv Hc. rewrite bytes_append.
  apply Forall_app. split; [exact Hv|]. by repeat constructor.
Qed.

(** The loop always ends, at a position [i'] inside the buffer, and leaves in
    [v'] the bytes between the cursor and [i'], all of them digits. *)
Lemma RangeInt_Parse_loop_spec p pars cur :
  parser_ok pars → 0 ≤ cur →
  ∀ fuel i v,
    cur ≤ i → i < len (Data pars) →
    (Z.to_nat (len (Data pars) - i) < fuel)%nat →
    slice (Data pars) cur i = Ok v → digits_only v →
    ∃ i' v', RangeInt_Parse_loop fuel p pars i v = Ok (i', v') ∧
      i ≤ i' ≤ len (Data pars) ∧
      slice (Data pars) cur i' = Ok v' ∧ digits_only v'.
Proof.
  intros [Hlen Hmax] Hcur. unfold MaxInt64 in Hmax.
  induction fuel as [|fuel IH]; intros i v Hi Hlt Hfuel Hs Hv; [lia|].
  destruct (index_total (Data pars) i ltac:(lia)) as [c Hc].
  cbn [RangeInt_Parse_loop]. rewrite Hc. cbn [mbind result_bind].
  destruct (not_digit c) eqn:Hd.
  { exists i, v. repeat split; try done; lia. }
  pose proof (slice_snoc _ _ _ _ _ Hi Hc Hs) as Hs1.
  pose proof (digits_only_snoc _ _ Hv Hd) as Hv1.
  destruct (RangeInt_to p <? _).
  { rewrite slice_remove_last. cbn [mbind result_bind].
    exists i, v. repeat split; try done; lia. }
  assert (Hadd : int_add i 1 = i + 1).
  { apply to_int_id. unfold is_int, MinInt64, MaxInt64. lia. }
  rewrite Hadd. destruct (Z.eqb_spec (i + 1) (DataLen pars)) as [He|Hne].
  { eexists (i + 1), _. repeat split; try done; lia. }
  destruct (IH (i + 1) _ ltac:(lia) ltac:(lia) ltac:(lia) Hs1 Hv1)
    as (i' & v' & Hl & Hb & Hs' & Hv').
  exists i', v'. repeat split; try done; lia.
Qed.

(** C10, as stated, fails on a run of digits with a needless leading zero: on
    the buffer "007" a range from 0 to 10 consumes the three bytes and stores 7,
    which renders as "7". *)
Lemma RangeInt_Parse_leading_zero :
  let p := {| RangeInt_from := 0; RangeInt_to := 10; RangeInt_step := 1;
              RangeInt_value := 0 |} in
  RangeInt_Parse p (NewInternalParser "007") 0
  = Ok (RangeInt_set_value p 7, (3, [])) ∧
  slice "007" 0 3 = Ok "007"%string ∧
  RangeInt_String (RangeInt_set_value p 7) = "7"%string.
Proof. repeat split. Qed.

(** C10 (amended). On a well-formed parser, a cursor inside the buffer and a
    step that is not zero, [RangeInt.Parse] returns.  When it succeeds, the
    bytes [v] it consumed are a non-empty run of digits, the node's bounds and
    step are kept, the value becomes the integer [Atoi(v)], and [String()]
    renders that integer; the rendering is [v] itself when [v] has no needless
    leading zero and [Atoi] read it without a range error.  When it fails, the
    node is unchanged and the cursor returned is the one given. *)
Theorem RangeInt_Parse_value (p : RangeInt) (pars : InternalParser) (cur : Z) :
  parser_ok pars → 0 ≤ cur ≤ DataLen pars → RangeInt_step p ≠ 0 →
  ∃ p' next errs,
    RangeInt_Parse p pars cur = Ok (p', (next, errs)) ∧
    (errs = [] →
       ∃ v, slice (Data pars) cur next = Ok v ∧ digits_only v ∧ v ≠ EmptyString ∧
         p' = RangeInt_set_value p (fst (Atoi v)) ∧
         RangeInt_String p' = Itoa (fst (Atoi v)) ∧
         (no_leading_zero v → snd (Atoi v) = None → RangeInt_String p' = v)) ∧
    (errs ≠ [] → p' = p ∧ next = cur).
Proof.
  intros Hok Hcur Hstep. pose proof Hok as [Hlen Hmax].
  unfold RangeInt_Parse.
  destruct (Z.eqb_spec cur (DataLen pars)) as [He|Hne].
  { eexists _, _, _. split; [reflexivity|]. split; [discriminate|done]. }
  destruct (RangeInt_Parse_loop_spec p pars cur Hok (proj1 Hcur)
              (S (String.length (Data pars))) cur EmptyString)
    as (i' & v' & Hloop & Hb & Hs & Hv).
  { lia. } { lia. } { unfold len. lia. }
  { apply slice_empty; lia. } { constructor. }
  rewrite Hloop. cbn [mbind result_bind].
  unfold MaxInt64 in Hmax.
  assert (Hsub : int_sub i' 1 = i' - 1).
  { apply to_int_id. unfold is_int, MinInt64, MaxInt64. lia. }
  rewrite Hsub.
  assert (Hgot : ∃ got, slice (Data pars) cur
                          (if i' - 1 <? cur then cur else i' - 1) = Ok got).
  { eexists. apply slice_Ok; destruct (Z.ltb_spec (i' - 1) cur); lia. }
  destruct Hgot as [got Hgot].
  assert (Hfail : ∃ p' next errs,
    (got ← slice (Data pars) cur (if i' - 1 <? cur then cur else i' - 1);
     Ok (p, (cur, [ {| Message := ExpectedRangeButGot (RangeInt_from p)
                                    (RangeInt_to p) (RangeInt_step p) got;
                       ParserError_Type := ParseErrorUnexpectedData |} ])))
    = Ok (p', (next, errs)) ∧
    (errs = [] →
       ∃ v, slice (Data pars) cur next = Ok v ∧ digits_only v ∧ v ≠ EmptyString ∧
         p' = RangeInt_set_value p (fst (Atoi v)) ∧
         RangeInt_String p' = Itoa (fst (Atoi v)) ∧
         (no_leading_zero v → snd (Atoi v) = None → RangeInt_String p' = v)) ∧
    (errs ≠ [] → p' = p ∧ next = cur)).
  { rewrite Hgot. eexists _, _, _. split; [reflexivity|].
    split; [discriminate|done]. }
  destruct (String.eqb_spec v' EmptyString) as [Hemp|Hnemp];
    cbn [mbind result_bind]; [exact Hfail|].
  destruct (_ || _); cbn [mbind result_bind]; [exact Hfail|].
  unfold int_rem. destruct (Z.eqb_spec (RangeInt_step p) 0); [done|].
  cbn [mbind result_bind].
  destruct (negb _); [exact Hfail|].
  assert (Hadd : int_add (i' - 1) 1 = i').
  { unfold int_add. replace (i' - 1 + 1) with i' by lia.
    apply to_int_id. unfold is_int, MinInt64, MaxInt64. lia. }
  rewrite Hadd. eexists _, _, _. split; [reflexivity|].
  split; [|done]. intros _. exists v'.
  repeat split; try done.
  intros Hz Herr. unfold RangeInt_String. cbn [RangeInt_value RangeInt_set_value].
  by apply Itoa_Atoi.
Qed.

Lemma RangeInt_Parse_value_witness :
  let p := {| RangeInt_from := 0; RangeInt_to := 50; RangeInt_step := 5;
              RangeInt_value := 0 |} in
  ∃ p' next errs,
    RangeInt_Parse p (NewInternalParser "x45y") 1 = Ok (p', (next, errs)) ∧
    (errs = [] →
       ∃ v, slice "x45y" 1 next = Ok v ∧ digits_only v ∧ v ≠ EmptyString ∧
         p' = RangeInt_set_value p (fst (Atoi v)) ∧
         RangeInt_String p' = Itoa (fst (Atoi v)) ∧
         (no_leading_zero v → snd (Atoi v) = None → RangeInt_String p' = v)) ∧
    (errs ≠ [] → p' = p ∧ next = 1).
Proof.
  intros p. apply (RangeInt_Parse_value p (NewInternalParser "x45y") 1).
  - split; vm_compute; congruence.
  - simpl. vm_compute. split; congruence.
  - simpl. lia.
Defined.

(** C1. The step test of [RangeInt.Parse] is [ci % step], counted from zero
    and not from [from]: in the range from 1 to 10 with step 2, whose values
    are 1, 3, 5, 7 and 9, the text "3" is refused with an unexpected-data error
    and the text "4" is accepted and stored. *)
Theorem RangeInt_Parse_step_counted_from_zero :
  let p := {| RangeInt_from := 1; RangeInt_to := 10; RangeInt_step := 2;
              RangeInt_value := 1 |} in
  NewRangeIntWithStep 1 10 2 = Ok p ∧
  RangeInt_Parse p (NewInternalParser "3") 0
  = Ok (p, (0, [ {| Message := ExpectedRangeButGot 1 10 2 "";
                    ParserError_Type := ParseErrorUnexpectedData |} ])) ∧
  (1 ≤ 3 ≤ 10 ∧ (3 - 1) mod 2 = 0) ∧
  RangeInt_Parse p (NewInternalParser "4") 0
  = Ok (RangeInt_set_value p 4, (1, [])) ∧
  (4 - 1) mod 2 = 1 ∧
  (∀ i, RangeInt_Permutation p i ≠ Ok (RangeInt_set_value p 4, None)).
Proof.
  intros p.
  split; [reflexivity|]. split; [vm_compute; reflexivity|].
  split; [split; [lia|reflexivity]|]. split; [vm_compute; reflexivity|].
  split; [reflexivity|].
  intros i. unfold RangeInt_Permutation.
  change (RangeInt_Permutations p) with (Ok (A:=Z) 5). cbn [mbind result_bind].
  destruct (_ || _); [discriminate|].
  unfold RangeInt_permutation, RangeInt_set_value. cbn [RangeInt_from RangeInt_step p].
  intros [= H]. revert H. unfold int_add, int_mul, uint_sub.
  destruct (to_int_parity (to_int (to_uint (i - 1)) * 2)) as [k1 ->].
  destruct (to_int_parity (1 + (to_int (to_uint (i - 1)) * 2 + 2 * k1)))
    as [k2 ->].
  lia.
Qed.

(** ** The store and the trees in it *)

(** Inversion of a bind that returned. *)
Tactic Notation "bind_inv" hyp(H) "as" simple_intropattern(p) ident(E) :=
  match type of H with
  | mbind _ ?m = Ok _ =>
      destruct m as [p|?|] eqn:E; cbn [mbind result_bind] in H;
      [|discriminate H..]
  end.

Lemma Ok_inj {A} (a b : A) : Ok a = Ok b → a = b.
Proof. by intros [= ->]. Qed.

Lemma alloc_spec h nd c h' :
  alloc h nd = (c, h') → h !! c = None ∧ h' = <[c := nd]> h.
Proof.
  unfold alloc. intros [= <- <-]. split; [|reflexivity].
  apply not_elem_of_dom, is_fresh.
Qed.

Lemma alloc_subseteq h nd c h' : alloc h nd = (c, h') → h ⊆ h'.
Proof. intros [Hc ->]%alloc_spec. by apply insert_subseteq. Qed.

Lemma difference_mono (h1 h2 g1 g2 : heap) :
  h1 ⊆ h2 → g1 ⊆ g2 → h1 ∖ g2 ⊆ h2 ∖ g1.
Proof.
  intros Hh Hg. apply map_subseteq_spec. intros i x.
  rewrite !lookup_difference_Some. intros [Hx Hn]. split.
  - eapply lookup_weaken; eauto.
  - eapply lookup_weaken_None; eauto.
Qed.

Lemma difference_subseteq (h g : heap) : h ∖ g ⊆ h.
Proof.
  apply map_subseteq_spec. intros i x. rewrite lookup_difference_Some. tauto.
Qed.

Lemma Forall2_Forall_impl {A B} (P R : A → B → Prop) (Q : B → Prop) l k :
  Forall2 P l k → Forall Q k → (∀ x y, P x y → Q y → R x y) → Forall2 R l k.
Proof.
  intros H. induction H as [|x y l k Hxy Hlk IH]; intros HQ Himp; [constructor|].
  inversion HQ; subst. constructor; auto.
Qed.

Lemma depth_Arithmetic_inv k ta tb m :
  (depth (TArithmetic k ta tb) ≤ S m)%nat → (depth ta ≤ m)%nat ∧ (depth tb ≤ m)%nat.
Proof. simpl. lia. Qed.

Lemma depth_Least_inv n ttoken tvalue m :
  (depth (TLeast n ttoken tvalue) ≤ S m)%nat →
  (depth ttoken ≤ m)%nat ∧ Forall (λ t, (depth t ≤ m)%nat) tvalue.
Proof.
  simpl. intros H. split; [lia|].
  assert (Hd : ((fix depths (ts : list Tree) : nat :=
                   match ts with
                   | [] => O
                   | t :: ts => Nat.max (depth t) (depths ts)
                   end) tvalue ≤ m)%nat) by lia.
  clear H. induction tvalue as [|t ts IH]; constructor; [lia|apply IH; lia].
Qed.

Lemma depth_pos t : (1 ≤ depth t)%nat.
Proof. destruct t; simpl; lia. Qed.

Lemma tree_at_mono_depth (h h' : heap) :
  h ⊆ h' → ∀ n t l, (depth t ≤ n)%nat → tree_at h l t → tree_at h' l t.
Proof.
  intros Hsub. induction n as [|n IH]; intros t l Hd Ht.
  { pose proof (depth_pos t). lia. }
  inversion Ht; subst.
  - constructor. by eapply lookup_weaken.
  - constructor. by eapply lookup_weaken.
  - constructor. by eapply lookup_weaken.
  - apply depth_Arithmetic_inv in Hd as [Ha Hb].
    constructor; [by eapply lookup_weaken|by apply IH..].
  - apply depth_Least_inv in Hd as [Htok Hval].
    constructor; [by eapply lookup_weaken|by apply IH|].
    eapply Forall2_Forall_impl; [eassumption|exact Hval|].
    intros a b Hab Hb. by apply IH.
Qed.

Lemma tree_at_mono (h h' : heap) l t : h ⊆ h' → tree_at h l t → tree_at h' l t.
Proof. intros Hsub. by apply (tree_at_mono_depth h h' Hsub (depth t)). Qed.

Lemma tree_at_lookup (h : heap) l t : tree_at h l t → is_Some (h !! l).
Proof. inversion 1; eauto. Qed.

(** *** Clone only allocates *)

Lemma clone_each_frame (Clone : heap → loc → result (loc * heap)) :
  (∀ h l c h', Clone h l = Ok (c, h') → h ⊆ h') →
  ∀ toks h cs h', clone_each Clone h toks = Ok (cs, h') → h ⊆ h'.
Proof.
  intros HC. induction toks as [|tok toks IH]; intros h cs h' H;
    cbn [clone_each] in H.
  - by injection H as <- <-.
  - bind_inv H as [c h1] E1. bind_inv H as [cs1 h2] E2.
    injection H as <- <-.
    etransitivity; [exact (HC _ _ _ _ E1)|exact (IH _ _ _ E2)].
Qed.

Lemma Token_Clone_frame fuel :
  ∀ h l c h', Token_Clone fuel h l = Ok (c, h') → h ⊆ h'.
Proof.
  induction fuel as [|fuel IH]; intros h l c h' H; cbn [Token_Clone] in H;
    [discriminate|].
  destruct (h !! l) as [[p|p|p|e|x]|]; [..|discriminate].
  - apply Ok_inj in H. exact (alloc_subseteq _ _ _ _ H).
  - apply Ok_inj in H. exact (alloc_subseteq _ _ _ _ H).
  - apply Ok_inj in H. exact (alloc_subseteq _ _ _ _ H).
  - unfold Arithmetic_Clone in H.
    bind_inv H as [a h1] E1. bind_inv H as [b h2] E2.
    apply Ok_inj, alloc_subseteq in H.
    etransitivity; [exact (IH _ _ _ _ E1)|].
    etransitivity; [exact (IH _ _ _ _ E2)|exact H].
  - unfold Least_Clone in H.
    bind_inv H as [tok h1] E1. bind_inv H as [cs h2] E2.
    apply Ok_inj, alloc_subseteq in H.
    etransitivity; [exact (IH _ _ _ _ E1)|].
    etransitivity; [exact (clone_each_frame _ IH _ _ _ _ E2)|exact H].
Qed.

(** *** Clone copies the tree into fresh locations *)

Lemma clone_each_tree (Clone : heap → loc → result (loc * heap)) (fuel : nat) :
  (∀ h l c h', Clone h l = Ok (c, h') → h ⊆ h') →
  (∀ h l t, tree_at h l t → (depth t ≤ fuel)%nat →
            ∃ c h', Clone h l = Ok (c, h') ∧ tree_at (h' ∖ h) c t) →
  ∀ toks ts h,
    Forall2 (tree_at h) toks ts → Forall (λ t, (depth t ≤ fuel)%nat) ts →
    ∃ cs h', clone_each Clone h toks = Ok (cs, h') ∧ h ⊆ h' ∧
             Forall2 (tree_at (h' ∖ h)) cs ts.
Proof.
  intros Hframe HC. induction toks as [|tok toks IH]; intros ts h H2 Hd.
  - inversion H2; subst. exists [], h. simpl. repeat split; [done|constructor].
  - inversion H2 as [|? t ? ts' Ht Hts]; subst. inversion Hd; subst.
    destruct (HC h tok t Ht) as (c & h1 & Hc & Htc); [done|].
    pose proof (Hframe _ _ _ _ Hc) as Hsub1.
    destruct (IH ts' h1) as (cs & h2 & Hcs & Hsub2 & Htcs); [|done|].
    { eapply Forall2_impl; [exact Hts|]. intros. by eapply tree_at_mono. }
    exists (c :: cs), h2. simpl. rewrite Hc. cbn [mbind result_bind].
    rewrite Hcs. cbn [mbind result_bind]. split; [done|].
    split; [by etransitivity|]. constructor.
    + eapply tree_at_mono; [|exact Htc]. by apply difference_mono.
    + eapply Forall2_impl; [exact Htcs|]. intros x y Hxy.
      eapply tree_at_mono; [|exact Hxy]. by apply difference_mono.
Qed.

Lemma tree_at_alloc (h h0 : heap) nd c h' t :
  h0 ⊆ h → alloc h nd = (c, h') → tree_at (<[c := nd]> (h ∖ h0)) c t →
  tree_at (h' ∖ h0) c t.
Proof.
  intros Hsub [Hc ->]%alloc_spec Ht. eapply tree_at_mono; [|exact Ht].
  apply map_subseteq_spec. intros i x. rewrite lookup_difference_Some.
  destruct (decide (c = i)) as [<-|Hne].
  - rewrite !lookup_insert_eq. intros [= <-]. split; [done|].
    by eapply lookup_weaken_None.
  - rewrite !lookup_insert_ne by done. by rewrite lookup_difference_Some.
Qed.

Lemma Token_Clone_tree fuel :
  ∀ h l t, tree_at h l t → (depth t ≤ fuel)%nat →
    ∃ c h', Token_Clone fuel h l = Ok (c, h') ∧ tree_at (h' ∖ h) c t.
Proof.
  induction fuel as [|fuel IH]; intros h l t Ht Hd.
  { pose proof (depth_pos t). lia. }
  inversion Ht as [? p Hl|? p Hl|? p Hl|? e ta tb Hl Ha Hb
                  |? x ttoken tvalue Hl Htok Hval]; subst; simpl; rewrite Hl.
  - destruct (alloc h (NConstantInt (ConstantInt_Clone p))) as [c h'] eqn:Hal.
    exists c, h'. split; [done|]. eapply tree_at_alloc; [done|exact Hal|].
    destruct p. constructor. by rewrite lookup_insert_eq.
  - destruct (alloc h (NRandomInt (RandomInt_Clone p))) as [c h'] eqn:Hal.
    exists c, h'. split; [done|]. eapply tree_at_alloc; [done|exact Hal|].
    destruct p. constructor. by rewrite lookup_insert_eq.
  - destruct (alloc h (NRangeInt (RangeInt_Clone p))) as [c h'] eqn:Hal.
    exists c, h'. split; [done|]. eapply tree_at_alloc; [done|exact Hal|].
    destruct p. constructor. by rewrite lookup_insert_eq.
  - apply depth_Arithmetic_inv in Hd as [Hda Hdb].
    destruct (IH h _ ta Ha Hda) as (ca & h1 & Hca & Hta).
    pose proof (Token_Clone_frame _ _ _ _ _ Hca) as Hsub1.
    destruct (IH h1 _ tb (tree_at_mono _ _ _ _ Hsub1 Hb) Hdb)
      as (cb & h2 & Hcb & Htb).
    pose proof (Token_Clone_frame _ _ _ _ _ Hcb) as Hsub2.
    unfold Arithmetic_Clone. rewrite Hca. cbn [mbind result_bind].
    rewrite Hcb. cbn [mbind result_bind].
    match goal with |- context [alloc h2 ?nd] =>
      destruct (alloc h2 nd) as [c h'] eqn:Hal end.
    exists c, h'. split; [done|].
    eapply tree_at_alloc; [by etransitivity|exact Hal|].
    pose proof (alloc_spec _ _ _ _ Hal) as [Hc _].
    assert (Hins : h2 ∖ h ⊆ <[c := NArithmetic
              {| Arithmetic_kind := Arithmetic_kind e; Arithmetic_a := ca;
                 Arithmetic_b := cb |}]> (h2 ∖ h)).
    { apply insert_subseteq. apply lookup_difference_None. by left. }
    eapply (tree_at_Arithmetic _ c {| Arithmetic_kind := Arithmetic_kind e;
                                      Arithmetic_a := ca; Arithmetic_b := cb |}).
    + by rewrite lookup_insert_eq.
    + simpl. eapply tree_at_mono; [|exact Hta].
      etransitivity; [|exact Hins]. by apply difference_mono.
    + simpl. eapply tree_at_mono; [|exact Htb].
      etransitivity; [|exact Hins]. by apply difference_mono.
  - apply depth_Least_inv in Hd as [Hdt Hdv].
    destruct (IH h _ ttoken Htok Hdt) as (ct & h1 & Hct & Htt).
    pose proof (Token_Clone_frame _ _ _ _ _ Hct) as Hsub1.
    destruct (clone_each_tree (Token_Clone fuel) fuel (Token_Clone_frame fuel) IH
                (Least_value x) tvalue h1) as (cs & h2 & Hcs & Hsub2 & Htcs);
      [|done|].
    { eapply Forall2_impl; [exact Hval|]. intros. by eapply tree_at_mono. }
    unfold Least_Clone. rewrite Hct. cbn [mbind result_bind].
    rewrite Hcs. cbn [mbind result_bind].
    match goal with |- context [alloc h2 ?nd] =>
      destruct (alloc h2 nd) as [c h'] eqn:Hal end.
    exists c, h'. split; [done|].
    eapply tree_at_alloc; [by etransitivity|exact Hal|].
    pose proof (alloc_spec _ _ _ _ Hal) as [Hc _].
    assert (Hins : h2 ∖ h ⊆ <[c := NLeast
              {| Least_n := Least_n x; Least_token := ct; Least_value := cs |}]>
              (h2 ∖ h)).
    { apply insert_subseteq. apply lookup_difference_None. by left. }
    eapply (tree_at_Least _ c {| Least_n := Least_n x; Least_token := ct;
                                 Least_value := cs |}).
    + by rewrite lookup_insert_eq.
    + simpl. eapply tree_at_mono; [|exact Htt].
      etransitivity; [|exact Hins]. by apply difference_mono.
    + simpl. eapply Forall2_impl; [exact Htcs|]. intros a b Hab.
      eapply tree_at_mono; [|exact Hab].
      etransitivity; [|exact Hins]. by apply difference_mono.
Qed.

(** A clone is new: it is at a location the store did not have, and its tree
    is also a tree of the whole new store. *)
Lemma tree_at_difference (h h' : heap) c t :
  tree_at (h' ∖ h) c t → h !! c = None ∧ tree_at h' c t.
Proof.
  intros Ht. split.
  - destruct (tree_at_lookup _ _ _ Ht) as [nd Hnd].
    by apply lookup_difference_Some in Hnd as [_ ?].
  - eapply tree_at_mono; [apply difference_subseteq|exact Ht].
Qed.

(** *** String() reads the tree *)

Lemma Least_String_loop_tree fuel (h : heap) :
  (∀ l t, tree_at h l t → (depth t ≤ fuel)%nat →
          Token_String fuel h l = Tree_String t) →
  ∀ toks ts buffer,
    Forall2 (tree_at h) toks ts → Forall (λ t, (depth t ≤ fuel)%nat) ts →
    Least_String_loop (Token_String fuel h) toks buffer
    = (fix texts (ts : list Tree) (buffer : string) : result string :=
         match ts with
         | [] => Ok buffer
         | t :: ts => s ← Tree_String t; texts ts (String.append buffer s)
         end) ts buffer.
Proof.
  intros IH. induction toks as [|tok toks IHl]; intros ts buffer H2 Hd.
  - by inversion H2; subst.
  - inversion H2 as [|? t ? ts' Ht Hts]; subst. inversion Hd; subst.
    simpl. rewrite (IH tok t) by done.
    destruct (Tree_String t); cbn [mbind result_bind]; [|done..].
    by apply IHl.
Qed.

Lemma Token_String_tree fuel :
  ∀ h l t, tree_at h l t → (depth t ≤ fuel)%nat →
    Token_String fuel h l = Tree_String t.
Proof.
  induction fuel as [|fuel IH]; intros h l t Ht Hd.
  { pose proof (depth_pos t). lia. }
  inversion Ht as [? p Hl|? p Hl|? p Hl|? e ta tb Hl Ha Hb
                  |? x ttoken tvalue Hl Htok Hval]; subst; simpl; rewrite Hl;
    try reflexivity.
  - apply depth_Arithmetic_inv in Hd as [Hda Hdb].
    unfold Arithmetic_String.
    by rewrite (IH h _ ta Ha Hda), (IH h _ tb Hb Hdb).
  - apply depth_Least_inv in Hd as [Hdt Hdv].
    unfold Least_String. apply Least_String_loop_tree; [|done..].
    intros. by apply IH.
Qed.

(** The text of a tree is a text or a panic of [String()] itself. *)
Lemma Tree_String_defined_depth :
  ∀ n t, (depth t ≤ n)%nat → Tree_String t ≠ OutOfFuel.
Proof.
  induction n as [|n IH]; intros t Hd.
  { pose proof (depth_pos t). lia. }
  destruct t as [p|p|p|k ta tb|m ttoken tvalue]; simpl; try discriminate.
  - apply depth_Arithmetic_inv in Hd as [Hda Hdb].
    pose proof (IH ta Hda). pose proof (IH tb Hdb).
    destruct (Tree_String ta); cbn [mbind result_bind]; try done.
    destruct (Atoi_or_panic a) eqn:Ea; cbn [mbind result_bind]; try done.
    2:{ unfold Atoi_or_panic in Ea. destruct (Atoi a) as [? [[]|]]; discriminate. }
    destruct (Tree_String tb); cbn [mbind result_bind]; try done.
    destruct (Atoi_or_panic a1) eqn:Eb; cbn [mbind result_bind]; try done.
    2:{ unfold Atoi_or_panic in Eb. destruct (Atoi a1) as [? [[]|]]; discriminate. }
    destruct k; simpl; try discriminate.
    unfold int_quo. destruct (_ =? _); discriminate.
  - apply depth_Least_inv in Hd as [_ Hdv]. generalize EmptyString.
    induction Hdv as [|t ts Ht Hts IHts]; intros buffer; [discriminate|].
    pose proof (IH t Ht).
    destruct (Tree_String t); cbn [mbind result_bind]; try done.
Qed.

Lemma Tree_String_defined t : Tree_String t ≠ OutOfFuel.
Proof. by apply (Tree_String_defined_depth (depth t)). Qed.

(** *** A store holds one tree at a location, and no tree holds itself *)

Lemma Forall2_tree_at_det (h : heap) (P : Tree → Prop) :
  (∀ l t1 t2, P t1 → tree_at h l t1 → tree_at h l t2 → t1 = t2) →
  ∀ ls ts1 ts2,
    Forall P ts1 → Forall2 (tree_at h) ls ts1 → Forall2 (tree_at h) ls ts2 →
    ts1 = ts2.
Proof.
  intros Hdet. induction ls as [|l ls IH]; intros ts1 ts2 HP H1 H2.
  - inversion H1; inversion H2; by subst.
  - inversion H1; inversion H2; subst. inversion HP; subst.
    f_equal; [by eapply Hdet|by eapply IH].
Qed.

Lemma tree_at_det_depth (h : heap) :
  ∀ n l t1 t2, (depth t1 ≤ n)%nat → tree_at h l t1 → tree_at h l t2 → t1 = t2.
Proof.
  induction n as [|n IH]; intros l t1 t2 Hd H1 H2.
  { pose proof (depth_pos t1). lia. }
  inversion H1 as [? p Hl|? p Hl|? p Hl|? e ta tb Hl Ha Hb
                  |? x ttoken tvalue Hl Htok Hval]; subst;
    inversion H2 as [? p' Hl'|? p' Hl'|? p' Hl'|? e' ta' tb' Hl' Ha' Hb'
                    |? x' ttoken' tvalue' Hl' Htok' Hval']; subst;
    rewrite Hl in Hl'; try discriminate; injection Hl' as <-; try reflexivity.
  - apply depth_Arithmetic_inv in Hd as [Hda Hdb]. f_equal; by eapply IH.
  - apply depth_Least_inv in Hd as [Hdt Hdv]. f_equal; [by eapply IH|].
    eapply (Forall2_tree_at_det h (λ t, (depth t ≤ n)%nat)); [|done..].
    intros. by eapply IH.
Qed.

Lemma tree_at_det (h : heap) l t1 t2 : tree_at h l t1 → tree_at h l t2 → t1 = t2.
Proof. by apply (tree_at_det_depth h (depth t1)). Qed.

(** The tree of a list's template does not pass through the list. *)
Lemma tree_at_delete_depth (h : heap) l x t :
  h !! l = Some (NLeast x) → tree_at h (Least_token x) t →
  ∀ n l' t', (depth t' ≤ n)%nat → (n ≤ depth t)%nat →
    tree_at h l' t' → tree_at (delete l h) l' t'.
Proof.
  intros Hl Ht. induction n as [|n IH]; intros l' t' Hd Hn Ht'.
  { pose proof (depth_pos t'). lia. }
  destruct (decide (l' = l)) as [->|Hne].
  { exfalso. inversion Ht' as [| | | |? x' ttoken tvalue Hl' Htok Hval]; subst;
      rewrite Hl in *; try discriminate.
    injection Hl' as <-. rewrite (tree_at_det _ _ _ _ Htok Ht) in Hd.
    simpl in Hd. lia. }
  inversion Ht' as [? p Hl'|? p Hl'|? p Hl'|? e ta tb Hl' Ha Hb
                   |? x' ttoken tvalue Hl' Htok Hval]; subst.
  - constructor. by rewrite lookup_delete_ne.
  - constructor. by rewrite lookup_delete_ne.
  - constructor. by rewrite lookup_delete_ne.
  - apply depth_Arithmetic_inv in Hd as [Hda Hdb].
    constructor; [by rewrite lookup_delete_ne|apply IH; [done|lia|done]..].
  - apply depth_Least_inv in Hd as [Hdt Hdv].
    constructor; [by rewrite lookup_delete_ne|apply IH; [done|lia|done]|].
    eapply Forall2_Forall_impl; [exact Hval|exact Hdv|].
    intros a b Hab Hb. apply IH; [done|lia|done].
Qed.

Lemma tree_at_delete (h : heap) l x t :
  h !! l = Some (NLeast x) → tree_at h (Least_token x) t →
  tree_at (delete l h) (Least_token x) t.
Proof.
  intros Hl Ht. by apply (tree_at_delete_depth h l x t Hl Ht (depth t)).
Qed.

(** Cloning a token whose tree does not pass through [l]: the clone is new and
    its tree does not pass through [l] either. *)
Lemma Token_Clone_beside (h : heap) l tok t fuel :
  is_Some (h !! l) → tree_at (delete l h) tok t → (depth t ≤ fuel)%nat →
  ∃ c h1, Token_Clone fuel h tok = Ok (c, h1) ∧ h ⊆ h1 ∧ h !! c = None ∧
          tree_at (delete l h1) c t.
Proof.
  intros [nd Hl] Ht Hd.
  destruct (Token_Clone_tree fuel h tok t) as (c & h1 & Hc & Htc); [|done|].
  { eapply tree_at_mono; [apply delete_subseteq|exact Ht]. }
  pose proof (Token_Clone_frame _ _ _ _ _ Hc) as Hsub.
  exists c, h1. split; [done|]. split; [done|].
  split; [by apply tree_at_difference in Htc as [? _]|].
  eapply tree_at_mono; [|exact Htc].
  apply map_subseteq_spec. intros i y. rewrite lookup_difference_Some.
  intros [Hy Hn]. rewrite lookup_delete_ne; [done|]. intros <-. congruence.
Qed.

Lemma delete_insert_sub (h : heap) l nd : delete l h ⊆ <[l := nd]> h.
Proof.
  apply map_subseteq_spec. intros i x [Hne Hx]%lookup_delete_Some.
  by rewrite lookup_insert_ne.
Qed.

Lemma get_Least_Some (h : heap) l x : h !! l = Some (NLeast x) → get_Least h l = Ok x.
Proof. unfold get_Least. by intros ->. Qed.

(** ** Least as an optional token *)

(** X17. For a list with minimum [n == 0]: [IsOptional()] is true;
    [Deactivate()] leaves a list whose [Len()] is 0 and whose text is empty;
    [Activate()], when the template holds a tree, leaves a list whose [Len()]
    is 1 and whose single element is a new token holding the template's tree.
    For a list with [n > 0], [Activate()] and [Deactivate()] leave the store,
    hence the elements, as they were. *)
Theorem Least_optional (h : heap) (l : loc) (x : Least) :
  h !! l = Some (NLeast x) →
  (Least_n x = 0 →
     Least_IsOptional x = true ∧
     (∃ h1 x1, Least_Deactivate h l = Ok h1 ∧ h1 !! l = Some (NLeast x1) ∧
        Least_Len x1 = 0 ∧ Least_value x1 = [] ∧
        ∀ fuel, Token_String (S fuel) h1 l = Ok EmptyString) ∧
     (∀ t fuel, tree_at h (Least_token x) t → (depth t ≤ fuel)%nat →
        ∃ h2 x2 c, Least_Activate (Token_Clone fuel) h l = Ok h2 ∧
          h2 !! l = Some (NLeast x2) ∧ Least_Len x2 = 1 ∧
          Least_value x2 = [c] ∧ Least_token x2 = Least_token x ∧
          h !! c = None ∧ tree_at h2 c t ∧ tree_at h2 (Least_token x) t)) ∧
  (0 < Least_n x →
     (∀ Clone, Least_Activate Clone h l = Ok h) ∧ Least_Deactivate h l = Ok h).
Proof.
  intros Hl. split.
  - intros Hn. split; [|split].
    + unfold Least_IsOptional. by rewrite Hn.
    + unfold Least_Deactivate. rewrite (get_Least_Some _ _ _ Hl).
      cbn [mbind result_bind]. rewrite Hn. simpl (0 <? 0).
      eexists _, _. split; [reflexivity|]. split; [apply lookup_insert_eq|].
      split; [reflexivity|]. split; [reflexivity|].
      intros fuel. simpl. by rewrite lookup_insert_eq.
    + intros t fuel Ht Hd.
      pose proof (tree_at_delete _ _ _ _ Hl Ht) as Htd.
      destruct (Token_Clone_beside h l _ t fuel (mk_is_Some _ _ Hl) Htd Hd)
        as (c & h1 & Hc & Hsub & Hfresh & Htc).
      unfold Least_Activate. rewrite (get_Least_Some _ _ _ Hl).
      cbn [mbind result_bind]. rewrite Hn. simpl (0 <? 0).
      rewrite Hc. cbn [mbind result_bind].
      rewrite (get_Least_Some h1 l x) by (by eapply lookup_weaken).
      cbn [mbind result_bind].
      eexists _, _, c. split; [reflexivity|]. split; [apply lookup_insert_eq|].
      repeat split; try done.
      * eapply tree_at_mono; [apply delete_insert_sub|exact Htc].
      * eapply tree_at_mono; [|exact Htd].
        etransitivity; [by apply delete_mono|apply delete_insert_sub].
  - intros Hn. assert (Hpos : (0 <? Least_n x) = true) by (apply Z.ltb_lt; lia).
    split.
    + intros Clone. unfold Least_Activate. rewrite (get_Least_Some _ _ _ Hl).
      cbn [mbind result_bind]. by rewrite Hpos.
    + unfold Least_Deactivate. rewrite (get_Least_Some _ _ _ Hl).
      cbn [mbind result_bind]. by rewrite Hpos.
Qed.

(** ** Least.InternalReplace *)

Lemma Least_InternalReplace_loop_spec fuel l n newToken t :
  (depth t ≤ fuel)%nat →
  ∀ count i (h : heap) value,
    h !! l = Some (NLeast {| Least_n := n; Least_token := newToken;
                             Least_value := value |}) →
    tree_at (delete l h) newToken t →
    (i + count = length value)%nat →
    ∃ h' value',
      Least_InternalReplace_loop (Token_Clone fuel) h l i count = Ok h' ∧
      h' !! l = Some (NLeast {| Least_n := n; Least_token := newToken;
                                Least_value := value' |}) ∧
      delete l h ⊆ delete l h' ∧
      length value' = length value ∧
      take i value' = take i value ∧
      ∀ j c, (i ≤ j)%nat → value' !! j = Some c →
             h !! c = None ∧ tree_at (delete l h') c t.
Proof.
  intros Hd. induction count as [|count IH]; intros i h value Hl Ht Hlen.
  { exists h, value. cbn [Least_InternalReplace_loop].
    do 5 (split; [done|]).
    intros j c Hj Hc. apply lookup_lt_Some in Hc. lia. }
  destruct (Token_Clone_beside h l newToken t fuel (mk_is_Some _ _ Hl) Ht Hd)
    as (c & h1 & Hc & Hsub & Hfresh & Htc).
  cbn [Least_InternalReplace_loop].
  rewrite (get_Least_Some _ _ _ Hl). cbn [mbind result_bind Least_token].
  rewrite Hc. cbn [mbind result_bind].
  rewrite (get_Least_Some h1 l _ (lookup_weaken _ _ _ _ Hl Hsub)).
  cbn [mbind result_bind Least_n Least_token Least_value].
  set (h2 := <[l := _]> h1).
  assert (Hdel : delete l h2 = delete l h1) by apply delete_insert_eq.
  destruct (IH (S i) h2 (<[i := c]> value)) as (h' & value' & Hloop & Hl' & Hsub' & Hlen' & Htake & Helems).
  { apply lookup_insert_eq. }
  { rewrite Hdel. eapply tree_at_mono; [by apply delete_mono|exact Ht]. }
  { rewrite length_insert. lia. }
  exists h', value'. split; [exact Hloop|]. split; [exact Hl'|].
  assert (Hsub0 : delete l h ⊆ delete l h').
  { etransitivity; [by apply delete_mono|]. by rewrite <- Hdel. }
  split; [exact Hsub0|]. rewrite length_insert in Hlen'. split; [exact Hlen'|].
  split.
  { apply (f_equal (take i)) in Htake. rewrite !take_take in Htake.
    rewrite Nat.min_l in Htake by lia. rewrite Htake.
    by rewrite take_insert_ge by lia. }
  intros j c' Hj Hc'. destruct (decide (j = i)) as [->|Hne].
  - assert (Hci : value' !! i = Some c).
    { rewrite <- (lookup_take_lt value' (S i) i) by lia. rewrite Htake.
      rewrite lookup_take_lt by lia. apply list_lookup_insert_eq. lia. }
    rewrite Hci in Hc'. injection Hc' as <-. split; [done|].
    eapply tree_at_mono; [|exact Htc]. by rewrite <- Hdel.
  - destruct (Helems j c' ltac:(lia) Hc') as [Hf2 Ht2]. split; [|done].
    destruct (h !! c') as [nd|] eqn:E; [|done]. exfalso.
    pose proof (lookup_weaken _ _ _ _ E Hsub) as E1.
    unfold h2 in Hf2. destruct (decide (l = c')) as [<-|Hlc].
    + by rewrite lookup_insert_eq in Hf2.
    + rewrite lookup_insert_ne in Hf2 by done. congruence.
Qed.

(** X16. [InternalReplace(old, new)] on a list whose template is not [old]
    changes nothing.  When the template is [old] (and [new] holds a tree that
    does not pass through the list), the template becomes [new] and every
    element becomes a new token holding the tree of [new]: none of them is a
    token the store held before, each renders as [new] does, and the number of
    elements is unchanged. *)
Theorem Least_InternalReplace_spec (h : heap) (l oldToken newToken : loc) (x : Least) :
  h !! l = Some (NLeast x) →
  (Least_token x ≠ oldToken →
     ∀ Clone, Least_InternalReplace Clone h l oldToken newToken = Ok h) ∧
  (Least_token x = oldToken →
     ∀ t fuel, tree_at (delete l h) newToken t → (depth t ≤ fuel)%nat →
       ∃ h' value',
         Least_InternalReplace (Token_Clone fuel) h l oldToken newToken = Ok h' ∧
         h' !! l = Some (NLeast {| Least_n := Least_n x; Least_token := newToken;
                                   Least_value := value' |}) ∧
         length value' = length (Least_value x) ∧
         tree_at h' newToken t ∧
         Forall (λ c, h !! c = None ∧ tree_at h' c t ∧
                      Token_String fuel h' c = Token_String fuel h' newToken)
                value').
Proof.
  intros Hl. split.
  - intros Hne Clone. unfold Least_InternalReplace.
    rewrite (get_Least_Some _ _ _ Hl). cbn [mbind result_bind].
    by destruct (decide _).
  - intros Heq t fuel Ht Hd. unfold Least_InternalReplace.
    rewrite (get_Least_Some _ _ _ Hl). cbn [mbind result_bind].
    destruct (decide _) as [_|]; [|done].
    set (h0 := <[l := _]> h).
    destruct (Least_InternalReplace_loop_spec fuel l (Least_n x) newToken t Hd
                (length (Least_value x)) 0%nat h0 (Least_value x))
      as (h' & value' & Hloop & Hl' & Hsub & Hlen & _ & Helems).
    { apply lookup_insert_eq. }
    { unfold h0. by rewrite delete_insert_eq. }
    { lia. }
    exists h', value'. split; [exact Hloop|]. split; [exact Hl'|].
    split; [exact Hlen|].
    assert (Hnew : tree_at h' newToken t).
    { eapply tree_at_mono; [|exact Ht].
      etransitivity; [|apply delete_subseteq].
      unfold h0 in Hsub. by rewrite delete_insert_eq in Hsub. }
    split; [exact Hnew|].
    apply Forall_lookup. intros j c Hc.
    destruct (Helems j c ltac:(lia) Hc) as [Hf Htc].
    assert (Htc' : tree_at h' c t).
    { eapply tree_at_mono; [apply delete_subseteq|exact Htc]. }
    split; [|split; [exact Htc'|]].
    + destruct (h !! c) as [nd|] eqn:E; [|done]. exfalso. unfold h0 in Hf.
      destruct (decide (l = c)) as [<-|Hlc].
      * by rewrite lookup_insert_eq in Hf.
      * rewrite lookup_insert_ne in Hf by done. congruence.
    + by rewrite (Token_String_tree fuel h' c t), (Token_String_tree fuel h' newToken t).
Qed.

Lemma Least_optional_witness :
  let h : heap := <[2%positive := NLeast {| Least_n := 0; Least_token := 1%positive;
                                            Least_value := [] |}]>
                    (<[1%positive := NConstantInt {| ConstantInt_value := 7 |}]> ∅) in
  ∃ h2 x2 c, Least_Activate (Token_Clone 1) h 2%positive = Ok h2 ∧
    h2 !! 2%positive = Some (NLeast x2) ∧ Least_Len x2 = 1 ∧
    Least_value x2 = [c] ∧
    tree_at h2 c (TConstantInt {| ConstantInt_value := 7 |}).
Proof.
  intros h.
  destruct (Least_optional h 2%positive
              {| Least_n := 0; Least_token := 1%positive; Least_value := [] |})
    as [Hopt _]; [vm_compute; reflexivity|].
  destruct (Hopt eq_refl) as (_ & _ & Hact).
  destruct (Hact (TConstantInt {| ConstantInt_value := 7 |}) 1%nat)
    as (h2 & x2 & c & H1 & H2 & H3 & H4 & _ & _ & H5 & _).
  { constructor. vm_compute. reflexivity. }
  { simpl. lia. }
  exists h2, x2, c. repeat split; assumption.
Defined.

Lemma Least_InternalReplace_spec_witness :
  let h : heap :=
    <[3%positive := NLeast {| Least_n := 1; Least_token := 1%positive;
                              Least_value := [4%positive] |}]>
      (<[4%positive := NConstantInt {| ConstantInt_value := 7 |}]>
         (<[2%positive := NConstantInt {| ConstantInt_value := 9 |}]>
            (<[1%positive := NConstantInt {| ConstantInt_value := 7 |}]> ∅))) in
  ∃ h' value',
    Least_InternalReplace (Token_Clone 1) h 3%positive 1%positive 2%positive = Ok h' ∧
    h' !! 3%positive = Some (NLeast {| Least_n := 1; Least_token := 2%positive;
                                       Least_value := value' |}) ∧
    length value' = 1%nat ∧
    Forall (λ c, h !! c = None ∧
                 tree_at h' c (TConstantInt {| ConstantInt_value := 9 |}) ∧
                 Token_String 1 h' c = Token_String 1 h' 2%positive) value'.
Proof.
  intros h.
  destruct (Least_InternalReplace_spec h 3%positive 1%positive 2%positive
              {| Least_n := 1; Least_token := 1%positive;
                 Least_value := [4%positive] |})
    as [_ Hrep]; [vm_compute; reflexivity|].
  destruct (Hrep eq_refl (TConstantInt {| ConstantInt_value := 9 |}) 1%nat)
    as (h' & value' & H1 & H2 & H3 & _ & H4).
  { constructor. vm_compute. reflexivity. }
  { simpl. lia. }
  exists h', value'. repeat split; assumption.
Defined.

(** ** Clone *)

Lemma Least_InternalReplace_loop_frame fuel (h0 : heap) l :
  h0 !! l = None →
  ∀ count i (h h' : heap),
    h0 ⊆ h → Least_InternalReplace_loop (Token_Clone fuel) h l i count = Ok h' →
    h0 ⊆ h'.
Proof.
  intros Hl. induction count as [|count IH]; intros i h h' Hsub H;
    cbn [Least_InternalReplace_loop] in H.
  { by injection H as <-. }
  bind_inv H as self E1. bind_inv H as [c h1] E2. bind_inv H as self' E3.
  eapply IH; [|exact H]. apply insert_subseteq_r; [done|].
  etransitivity; [exact Hsub|]. by eapply Token_Clone_frame.
Qed.

(** A change of a token at a location that a store [h0] does not hold leaves
    every token of [h0] as it was. *)
Lemma mutate_frame (h0 h h' : heap) m l :
  h0 ⊆ h → h0 !! l = None → mutate m h l = Ok h' → h0 ⊆ h'.
Proof.
  intros Hsub Hl H. destruct m; cbn [mutate] in H.
  - bind_inv H as [h1 r1] E. injection H as <-. unfold Token_Fuzz in E.
    destruct (h !! l) as [[p|p|p|e|x]|] eqn:El; try discriminate.
    + destruct (ConstantInt_Fuzz p r). injection E as <- _.
      by apply insert_subseteq_r.
    + destruct (RandomInt_Fuzz p r). injection E as <- _.
      by apply insert_subseteq_r.
    + bind_inv E as [p' r'] E1. injection E as <- _. by apply insert_subseteq_r.
    + by injection E as <- _.
    + unfold Least_Fuzz in E. bind_inv E as self E1. bind_inv E as [n r'] E2.
      destruct (_ <? 0); [discriminate|].
      bind_inv E as [toks h2] E3. bind_inv E as self' E4. injection E as <- _.
      apply insert_subseteq_r; [done|]. etransitivity; [exact Hsub|].
      eapply clone_each_frame; [apply Token_Clone_frame|exact E3].
  - bind_inv H as [h1 e1] E. injection H as <-. unfold Token_Permutation in E.
    destruct (h !! l) as [[p|p|p|e|x]|] eqn:El; try discriminate.
    + destruct (ConstantInt_Permutation p i). injection E as <- _.
      by apply insert_subseteq_r.
    + destruct (RandomInt_Permutation p i). injection E as <- _.
      by apply insert_subseteq_r.
    + bind_inv E as [p' e'] E1. injection E as <- _. by apply insert_subseteq_r.
    + by injection E as <- _.
  - bind_inv H as [h1 e1] E. injection H as <-. unfold Token_Parse in E.
    destruct (h !! l) as [[p|p|p|e|x]|] eqn:El; try discriminate.
    + bind_inv E as r E1. by injection E as <- _.
    + bind_inv E as [p' r] E1. injection E as <- _. by apply insert_subseteq_r.
  - unfold Arithmetic_InternalReplace in H. bind_inv H as e E.
    injection H as <-. by apply insert_subseteq_r.
  - unfold Least_InternalReplace in H. bind_inv H as self E.
    destruct (decide _); [|by injection H as <-].
    eapply Least_InternalReplace_loop_frame; [exact Hl| |exact H].
    by apply insert_subseteq_r.
  - unfold Least_Activate in H. bind_inv H as self E.
    destruct (0 <? _); [by injection H as <-|].
    bind_inv H as [c h1] E1. bind_inv H as self' E2. injection H as <-.
    apply insert_subseteq_r; [done|]. etransitivity; [exact Hsub|].
    by eapply Token_Clone_frame.
  - unfold Least_Deactivate in H. bind_inv H as self E.
    destruct (0 <? _); [by injection H as <-|].
    injection H as <-. by apply insert_subseteq_r.
Qed.

Lemma mutate_each_frame (h0 : heap) :
  ∀ ms (h h' : heap),
    Forall (λ lm, h0 !! lm.1 = None) ms → h0 ⊆ h →
    mutate_each ms h = Ok h' → h0 ⊆ h'.
Proof.
  induction ms as [|[l m] ms IH]; intros h h' Hms Hsub H; cbn [mutate_each] in H.
  { by injection H as <-. }
  inversion Hms as [|? ? Hl Hrest]; subst. bind_inv H as h1 E.
  eapply IH; [exact Hrest| |exact H]. by eapply mutate_frame.
Qed.

(** X15. A token that holds a tree can be cloned.  The clone is made of
    locations that the store did not hold, so it shares nothing with the
    original; its text is the text of the original; and whatever changes are
    then made to the clone or to any token made after it, by [Fuzz],
    [Permutation], [Parse], [InternalReplace], [Activate] or [Deactivate], the
    text of the original stays what it was. *)
Theorem Token_Clone_independent (h : heap) (o : loc) (t : Tree) (fuel : nat) :
  tree_at h o t → (depth t ≤ fuel)%nat →
  ∃ c h', Token_Clone fuel h o = Ok (c, h') ∧
    h ⊆ h' ∧ tree_at (h' ∖ h) c t ∧
    Token_String fuel h o ≠ OutOfFuel ∧
    Token_String fuel h' c = Token_String fuel h o ∧
    ∀ ms h'',
      Forall (λ lm, h !! lm.1 = None) ms → mutate_each ms h' = Ok h'' →
      Token_String fuel h'' o = Token_String fuel h o.
Proof.
  intros Ht Hd.
  destruct (Token_Clone_tree fuel h o t Ht Hd) as (c & h' & Hc & Htc).
  pose proof (Token_Clone_frame _ _ _ _ _ Hc) as Hsub.
  exists c, h'. split; [exact Hc|]. split; [exact Hsub|]. split; [exact Htc|].
  rewrite (Token_String_tree fuel h o t Ht Hd).
  split; [apply Tree_String_defined|]. split.
  - apply Token_String_tree; [|done]. by apply tree_at_difference in Htc as [_ ?].
  - intros ms h'' Hms Hmut. apply Token_String_tree; [|done].
    eapply tree_at_mono; [|exact Ht].
    by eapply mutate_each_frame.
Qed.

Lemma Token_Clone_independent_witness :
  let h : heap :=
    <[3%positive := NArithmetic {| Arithmetic_kind := AddArithmetic;
                                   Arithmetic_a := 1%positive;
                                   Arithmetic_b := 2%positive |}]>
      (<[2%positive := NConstantInt {| ConstantInt_value := 4 |}]>
         (<[1%positive := NConstantInt {| ConstantInt_value := 3 |}]> ∅)) in
  ∃ c h', Token_Clone 2 h 3%positive = Ok (c, h') ∧ h ⊆ h' ∧
    Token_String 2 h' c = Token_String 2 h 3%positive.
Proof.
  intros h.
  destruct (Token_Clone_independent h 3%positive
              (TArithmetic AddArithmetic
                 (TConstantInt {| ConstantInt_value := 3 |})
                 (TConstantInt {| ConstantInt_value := 4 |})) 2%nat)
    as (c & h' & H1 & H2 & _ & _ & H3 & _).
  - apply (tree_at_Arithmetic h 3%positive
             {| Arithmetic_kind := AddArithmetic; Arithmetic_a := 1%positive;
                Arithmetic_b := 2%positive |}); [vm_compute; reflexivity| |];
      constructor; vm_compute; reflexivity.
  - simpl. lia.
  - exists c, h'. split; [exact H1|]. split; [exact H2|exact H3].
Defined.

(** * Further properties of the tokens *)

(** ** ConstantInt.Parse at any cursor *)

(** X1. With the cursor inside the buffer, [ConstantInt.Parse] always returns;
    it succeeds exactly when the bytes of the buffer at the cursor are the
    decimal text of the value, and then the new cursor is just behind them.
    When it fails the cursor comes back unchanged with a single error, which is
    unexpected-EOF exactly when the buffer ends before the text would. *)
Theorem ConstantInt_Parse_iff (p : ConstantInt) (pars : InternalParser) (cur : Z) :
  let text := Itoa (ConstantInt_value p) in
  DataLen pars = len (Data pars) → 0 ≤ cur → cur + len text ≤ MaxInt64 →
  ∃ next errs,
    ConstantInt_Parse p pars cur = Ok (next, errs) ∧
    (errs = [] ↔ slice (Data pars) cur (cur + len text) = Ok text) ∧
    (errs = [] → next = cur + len text) ∧
    (errs ≠ [] →
       next = cur ∧
       ∃ e, errs = [e] ∧
         (ParserError_Type e = ParseErrorUnexpectedEOF
          ↔ DataLen pars < cur + len text)).
Proof.
  intros text Hlen Hcur Hmax. pose proof (len_nonneg text) as Htext.
  assert (Hadd : int_add (len text) cur = cur + len text).
  { unfold int_add. rewrite to_int_id; [lia|].
    unfold is_int, MinInt64, MaxInt64 in *. lia. }
  unfold ConstantInt_Parse. fold text. rewrite Hadd.
  destruct (Z.ltb_spec (DataLen pars) (cur + len text)) as [Hshort|Hlong].
  - eexists _, _. split; [reflexivity|]. split; [|split; [discriminate|]].
    + split; [discriminate|]. intros Hs.
      apply slice_inv in Hs as (_ & _ & Hb & _). lia.
    + intros _. split; [reflexivity|]. eexists. split; [reflexivity|].
      cbn [ParserError_Type]. tauto.
  - rewrite (slice_Ok (Data pars) cur (cur + len text)) by lia.
    cbn [mbind result_bind].
    destruct (String.eqb_spec text
                (string_of_list_ascii
                   (take (Z.to_nat (cur + len text - cur))
                      (drop (Z.to_nat cur) (bytes (Data pars)))))) as [He|Hne].
    + eexists _, _. split; [reflexivity|]. split; [|split; [done|done]].
      split; [|done]. intros _. by rewrite <- He.
    + eexists _, _. split; [reflexivity|]. split; [|split; [discriminate|]].
      * split; [discriminate|]. intros [= Hs]. by rewrite Hs in Hne.
      * intros _. split; [reflexivity|]. eexists. split; [reflexivity|].
        cbn [ParserError_Type]. split; [discriminate|lia].
Qed.

Lemma ConstantInt_Parse_iff_witness :
  ∃ next errs,
    ConstantInt_Parse (NewConstantInt 12) (NewInternalParser "a12b") 1
    = Ok (next, errs) ∧
    (errs = [] ↔ slice "a12b" 1 (1 + len (Itoa 12)) = Ok (Itoa 12)) ∧
    (errs = [] → next = 1 + len (Itoa 12)) ∧
    (errs ≠ [] →
       next = 1 ∧
       ∃ e, errs = [e] ∧
         (ParserError_Type e = ParseErrorUnexpectedEOF
          ↔ len "a12b" < 1 + len (Itoa 12))).
Proof.
  apply (ConstantInt_Parse_iff (NewConstantInt 12) (NewInternalParser "a12b") 1).
  - reflexivity.
  - lia.
  - vm_compute. discriminate.
Defined.

(** ** The values a range takes *)

(** X2. Both constructors of a range return a node exactly when [from <= to]
    (and [step >= 1]), and panic otherwise; [NewRangeInt] is
    [NewRangeIntWithStep] with step 1; the node returned has the value [from]
    and is on its grid.  [Permutation], whether it succeeds or fails, keeps a
    node that does not overflow on its grid. *)
Theorem RangeInt_on_grid_kept (from to step : Z) :
  NewRangeInt from to = NewRangeIntWithStep from to 1 ∧
  (from ≤ to ∧ 1 ≤ step →
     ∃ p, NewRangeIntWithStep from to step = Ok p ∧ RangeInt_value p = from ∧
          RangeInt_from p = from ∧ RangeInt_to p = to ∧ RangeInt_step p = step ∧
          RangeInt_on_grid p) ∧
  (to < from ∨ step < 1 → ∃ msg, NewRangeIntWithStep from to step = Panic msg) ∧
  (∀ p i p' err,
     RangeInt_no_overflow p → RangeInt_on_grid p →
     RangeInt_Permutation p i = Ok (p', err) →
     RangeInt_on_grid p' ∧ RangeInt_no_overflow p' ∧
     (err ≠ None → p' = p)).
Proof.
  split; [|split; [|split]].
  - unfold NewRangeInt, NewRangeIntWithStep. by destruct (to <? from).
  - intros [Hle Hs]. unfold NewRangeIntWithStep.
    destruct (Z.ltb_spec to from); [lia|]. destruct (Z.ltb_spec step 1); [lia|].
    eexists. split; [reflexivity|].
    unfold RangeInt_on_grid.
    cbn [RangeInt_from RangeInt_to RangeInt_step RangeInt_value].
    rewrite Z.sub_diag, Z.mod_0_l by lia. repeat split; lia.
  - intros H. unfold NewRangeIntWithStep.
    destruct (Z.ltb_spec to from); [eauto|]. destruct (Z.ltb_spec step 1); [eauto|lia].
  - intros p i p' err Hno Hgrid H.
    pose proof Hno as (Hf & Ht & Hd & Hn).
    pose proof Hgrid as (Hle & Hs & Hv & Hm).
    destruct (RangeInt_Permutation_in_range p Hf Ht Hle Hs Hd Hn) as [Hperms Hall].
    unfold RangeInt_Permutation in H. rewrite Hperms in H.
    cbn [mbind result_bind] in H.
    destruct (Z.ltb_spec i 1) as [Hi1|Hi1]; cbn [orb] in H.
    { injection H as <- <-. done. }
    destruct (Z.ltb_spec ((RangeInt_to p - RangeInt_from p) / RangeInt_step p + 1) i)
      as [Hi2|Hi2].
    { injection H as <- <-. done. }
    destruct (Hall i ltac:(lia)) as (q & Hq & Hqf & Hqt & Hqs & Hqv & _ & Hqr & Hqm).
    unfold RangeInt_Permutation in Hq. rewrite Hperms in Hq.
    cbn [mbind result_bind] in Hq.
    destruct (Z.ltb_spec i 1); [lia|].
    destruct (Z.ltb_spec ((RangeInt_to p - RangeInt_from p) / RangeInt_step p + 1) i);
      [lia|].
    cbn [orb] in Hq. rewrite H in Hq. injection Hq as -> ->.
    split; [|split; [|done]].
    + unfold RangeInt_on_grid. rewrite Hqf, Hqt, Hqs. done.
    + unfold RangeInt_no_overflow. rewrite Hqf, Hqt, Hqs. done.
Qed.

Lemma RangeInt_on_grid_kept_witness :
  ∃ p, NewRangeIntWithStep 1 10 2 = Ok p ∧ RangeInt_value p = 1 ∧
       RangeInt_on_grid p ∧
       ∀ i p' err, RangeInt_Permutation p i = Ok (p', err) → RangeInt_on_grid p'.
Proof.
  destruct (RangeInt_on_grid_kept 1 10 2) as (_ & Hnew & _ & Hperm).
  destruct (Hnew ltac:(lia)) as (p & Hp & Hv & Hf & Ht & Hs & Hg).
  exists p. split; [exact Hp|]. split; [exact Hv|]. split; [exact Hg|].
  intros i p' err H.
  refine (proj1 (Hperm p i p' err _ Hg H)).
  unfold RangeInt_no_overflow. rewrite Hf, Ht, Hs.
  vm_compute. repeat split; discriminate.
Defined.

(** X3. [Fuzz] on a range that is on its grid and does not overflow returns;
    it uses one draw of the random source, keeps the bounds and the step, and
    leaves a value that is on the grid: within [[from, to]] and a multiple of
    the step away from [from]. *)
Theorem RangeInt_Fuzz_on_grid (p : RangeInt) (r : Rand) :
  RangeInt_no_overflow p → RangeInt_from p ≤ RangeInt_to p → 1 ≤ RangeInt_step p →
  ∃ p' r', RangeInt_Fuzz p r = Ok (p', r') ∧
    Rand_used r' = S (Rand_used r) ∧ Rand_source r' = Rand_source r ∧
    RangeInt_from p' = RangeInt_from p ∧ RangeInt_to p' = RangeInt_to p ∧
    RangeInt_step p' = RangeInt_step p ∧
    RangeInt_on_grid p'.
Proof.
  intros (Hf & Ht & Hd & Hn) Hle Hs.
  destruct (RangeInt_Permutation_in_range p Hf Ht Hle Hs Hd Hn) as [Hperms _].
  set (n := (RangeInt_to p - RangeInt_from p) / RangeInt_step p + 1) in *.
  assert (Hq : 0 ≤ (RangeInt_to p - RangeInt_from p) / RangeInt_step p)
    by (apply Z.div_pos; lia).
  assert (Hm : RangeInt_step p
               * ((RangeInt_to p - RangeInt_from p) / RangeInt_step p)
               ≤ RangeInt_to p - RangeInt_from p) by (apply Z.mul_div_le; lia).
  unfold is_int, MinInt64, MaxInt64 in *.
  unfold RangeInt_Fuzz. rewrite Hperms. cbn [mbind result_bind].
  rewrite (to_int_id n) by (unfold is_int, MinInt64, MaxInt64; lia).
  unfold Rand_Int63n. destruct (Z.leb_spec n 0); [lia|].
  cbn [Rand_next mbind result_bind].
  set (x := Rand_source r (Rand_used r) mod n).
  assert (Hx : 0 ≤ x < n) by (apply Z.mod_pos_bound; lia).
  eexists _, _. split; [reflexivity|].
  cbn [Rand_used Rand_source]. split; [reflexivity|]. split; [reflexivity|].
  unfold RangeInt_permutation, RangeInt_set_value.
  cbn [RangeInt_from RangeInt_to RangeInt_step RangeInt_value].
  split; [reflexivity|]. split; [reflexivity|]. split; [reflexivity|].
  assert (Hxs : 0 ≤ x * RangeInt_step p ≤ RangeInt_to p - RangeInt_from p) by nia.
  assert (Hval : int_add (RangeInt_from p)
                   (int_mul (to_int (to_uint x)) (RangeInt_step p))
                 = RangeInt_from p + x * RangeInt_step p).
  { unfold int_add, int_mul.
    rewrite (to_uint_id x) by (unfold is_uint, MaxUint64; lia).
    rewrite (to_int_id x) by (unfold is_int, MinInt64, MaxInt64; lia).
    rewrite (to_int_id (x * RangeInt_step p))
      by (unfold is_int, MinInt64, MaxInt64; lia).
    apply to_int_id. unfold is_int, MinInt64, MaxInt64. lia. }
  unfold RangeInt_on_grid.
  cbn [RangeInt_from RangeInt_to RangeInt_step RangeInt_value]. rewrite Hval.
  repeat split; try lia.
  replace (RangeInt_from p + x * RangeInt_step p - RangeInt_from p)
    with (x * RangeInt_step p) by lia.
  apply Z.mod_mul. lia.
Qed.

Lemma RangeInt_Fuzz_on_grid_witness :
  let p := {| RangeInt_from := 1; RangeInt_to := 10; RangeInt_step := 2;
              RangeInt_value := 1 |} in
  let r := {| Rand_source := λ n, 7 + Z.of_nat n; Rand_used := 0 |} in
  ∃ p' r', RangeInt_Fuzz p r = Ok (p', r') ∧ RangeInt_on_grid p'.
Proof.
  intros p r.
  destruct (RangeInt_Fuzz_on_grid p r) as (p' & r' & H & _ & _ & _ & _ & _ & Hg).
  - vm_compute. repeat split; discriminate.
  - vm_compute. discriminate.
  - vm_compute. discriminate.
  - exists p', r'. split; [exact H|exact Hg].
Defined.

(** ** What RangeInt.Parse accepts *)

(** The loop stops at the end of the buffer, at a byte that is not a digit, or
    at a digit that would take the number above [to]. *)
Lemma RangeInt_Parse_loop_stop p pars cur :
  parser_ok pars → 0 ≤ cur →
  ∀ fuel i v,
    cur ≤ i → i < len (Data pars) →
    (Z.to_nat (len (Data pars) - i) < fuel)%nat →
    slice (Data pars) cur i = Ok v → digits_only v →
    ∃ i' v', RangeInt_Parse_loop fuel p pars i v = Ok (i', v') ∧
      i ≤ i' ≤ len (Data pars) ∧
      slice (Data pars) cur i' = Ok v' ∧ digits_only v' ∧
      (i' = len (Data pars) ∨
       ∃ c, index (Data pars) i' = Ok c ∧
         (not_digit c = true ∨
          RangeInt_to p < fst (Atoi (String.append v' (String c EmptyString))))).
Proof.
  intros [Hlen Hmax] Hcur. unfold MaxInt64 in Hmax.
  induction fuel as [|fuel IH]; intros i v Hi Hlt Hfuel Hs Hv; [lia|].
  destruct (index_total (Data pars) i ltac:(lia)) as [c Hc].
  cbn [RangeInt_Parse_loop]. rewrite Hc. cbn [mbind result_bind].
  destruct (not_digit c) eqn:Hd.
  { exists i, v. split; [done|]. split; [lia|]. split; [done|]. split; [done|].
    right. exists c. split; [done|]. by left. }
  pose proof (slice_snoc _ _ _ _ _ Hi Hc Hs) as Hs1.
  pose proof (digits_only_snoc _ _ Hv Hd) as Hv1.
  destruct (Z.ltb_spec (RangeInt_to p)
              (fst (Atoi (String.append v (String c EmptyString))))) as [Hover|Hfit].
  { rewrite slice_remove_last. cbn [mbind result_bind].
    exists i, v. split; [done|]. split; [lia|]. split; [done|]. split; [done|].
    right. exists c. split; [done|]. by right. }
  assert (Hadd : int_add i 1 = i + 1).
  { apply to_int_id. unfold is_int, MinInt64, MaxInt64. lia. }
  rewrite Hadd. destruct (Z.eqb_spec (i + 1) (DataLen pars)) as [He|Hne].
  { eexists (i + 1), _. split; [done|]. split; [lia|]. split; [done|].
    split; [done|]. left. lia. }
  destruct (IH (i + 1) _ ltac:(lia) ltac:(lia) ltac:(lia) Hs1 Hv1)
    as (i' & v' & Hl & Hb & Hs' & Hv' & Hstop).
  exists i', v'. split; [done|]. split; [lia|]. done.
Qed.

(** X4. When [RangeInt.Parse] succeeds, it has consumed at least one byte and
    only digits, without running past the buffer; the value it stored is the
    number they spell, is not negative and lies within [[from, to]] (so a range
    below zero never parses); and it stopped only at the end of the buffer, at
    a byte that is not a digit, or at a digit that would take the number above
    [to]. *)
Theorem RangeInt_Parse_success (p : RangeInt) (pars : InternalParser) (cur : Z)
    (p' : RangeInt) (next : Z) :
  parser_ok pars →
  RangeInt_Parse p pars cur = Ok (p', (next, [])) →
  ∃ v, slice (Data pars) cur next = Ok v ∧ digits_only v ∧
    0 ≤ cur ∧ cur < next ∧ next ≤ DataLen pars ∧
    p' = RangeInt_set_value p (fst (Atoi v)) ∧
    0 ≤ RangeInt_value p' ∧
    RangeInt_from p ≤ RangeInt_value p' ≤ RangeInt_to p ∧
    (next = DataLen pars ∨
     ∃ c, index (Data pars) next = Ok c ∧
       (not_digit c = true ∨
        RangeInt_to p < fst (Atoi (String.append v (String c EmptyString))))).
Proof.
  intros Hok H. pose proof Hok as [Hlen Hmax]. unfold MaxInt64 in Hmax.
  unfold RangeInt_Parse in H.
  destruct (Z.eqb_spec cur (DataLen pars)) as [He|Hne]; [discriminate|].
  assert (Hcur : 0 ≤ cur < len (Data pars)).
  { destruct (index (Data pars) cur) as [c|msg|] eqn:Hidx.
    - by apply index_Ok in Hidx as [? _].
    - cbn [RangeInt_Parse_loop] in H. rewrite Hidx in H. discriminate.
    - unfold index in Hidx. destruct (_ || _); [discriminate|].
      destruct (_ !! _); discriminate. }
  destruct (RangeInt_Parse_loop_stop p pars cur Hok (proj1 Hcur)
              (S (String.length (Data pars))) cur EmptyString)
    as (i' & v' & Hloop & Hb & Hs & Hv & Hstop).
  { lia. } { lia. } { unfold len. lia. }
  { apply slice_empty; lia. } { constructor. }
  rewrite Hloop in H. cbn [mbind result_bind] in H.
  assert (Hsub : int_sub i' 1 = i' - 1).
  { apply to_int_id. unfold is_int, MinInt64, MaxInt64. lia. }
  rewrite Hsub in H.
  assert (Hfail : ∀ b : bool,
    (if b then
       got ← slice (Data pars) cur (if i' - 1 <? cur then cur else i' - 1);
       Ok (p, (cur, [ {| Message := ExpectedRangeButGot (RangeInt_from p)
                                      (RangeInt_to p) (RangeInt_step p) got;
                         ParserError_Type := ParseErrorUnexpectedData |} ]))
     else Ok (RangeInt_set_value p (fst (Atoi v')), (int_add (i' - 1) 1, [])))
    = Ok (p', (next, [])) → b = false).
  { intros [] Hb'; [|done]. bind_inv Hb' as got Eg. discriminate. }
  destruct (String.eqb_spec v' EmptyString) as [Hemp|Hnemp];
    cbn [mbind result_bind] in H; [by apply (Hfail true) in H|].
  destruct (Z.ltb_spec (fst (Atoi v')) (RangeInt_from p)) as [Hlo|Hlo];
    cbn [orb mbind result_bind] in H; [by apply (Hfail true) in H|].
  destruct (Z.ltb_spec (RangeInt_to p) (fst (Atoi v'))) as [Hhi|Hhi];
    cbn [mbind result_bind] in H; [by apply (Hfail true) in H|].
  bind_inv H as r Er. cbn [mbind result_bind] in H.
  pose proof (Hfail _ H) as Hvalid. rewrite Hvalid in H.
  assert (Hadd : int_add (i' - 1) 1 = i').
  { unfold int_add. replace (i' - 1 + 1) with i' by lia.
    apply to_int_id. unfold is_int, MinInt64, MaxInt64. lia. }
  rewrite Hadd in H. injection H as <- <-.
  exists v'. split; [done|]. split; [done|]. split; [lia|].
  assert (Hnext : cur < i').
  { destruct (decide (i' = cur)) as [->|]; [|lia]. exfalso.
    rewrite slice_empty in Hs by lia. injection Hs as <-. done. }
  split; [done|]. split; [lia|]. split; [done|].
  cbn [RangeInt_value RangeInt_set_value].
  split; [by apply Atoi_digits_nonneg|]. split; [lia|].
  rewrite Hlen. done.
Qed.

Lemma RangeInt_Parse_success_witness :
  let p := {| RangeInt_from := 0; RangeInt_to := 50; RangeInt_step := 5;
              RangeInt_value := 0 |} in
  ∃ v, slice "x457" 1 3 = Ok v ∧ digits_only v ∧
    0 ≤ 1 ∧ 1 < 3 ∧ 3 ≤ len "x457" ∧
    RangeInt_set_value p 45 = RangeInt_set_value p (fst (Atoi v)) ∧
    0 ≤ RangeInt_value (RangeInt_set_value p 45) ∧
    0 ≤ RangeInt_value (RangeInt_set_value p 45) ≤ 50 ∧
    (3 = len "x457" ∨
     ∃ c, index "x457" 3 = Ok c ∧
       (not_digit c = true ∨
        50 < fst (Atoi (String.append v (String c EmptyString))))).
Proof.
  intros p.
  apply (RangeInt_Parse_success p (NewInternalParser "x457") 1
           (RangeInt_set_value p 45) 3).
  - split; vm_compute; [reflexivity|discriminate].
  - vm_compute. reflexivity.
Defined.

(** ** The text of an arithmetic expression *)

Lemma Atoi_minus rest :
  Atoi (String "-" rest)
  = match NilZero.uint_of_string rest with
    | None => (0, Some ErrSyntax)
    | Some d =>
        if Z.of_uint d <=? 9223372036854775808 then (- Z.of_uint d, None)
        else (MinInt64, Some ErrRange)
    end.
Proof. reflexivity. Qed.

Lemma string_of_uint_head d :
  d ≠ Decimal.Nil →
  ∃ c rest, NilEmpty.string_of_uint d = String c rest ∧
            c ≠ "+"%char ∧ c ≠ "-"%char.
Proof.
  destruct d; intros Hd; try done; cbn [NilEmpty.string_of_uint];
    eexists _, _; (split; [reflexivity|split; discriminate]).
Qed.

(** [Atoi] reads back what [Itoa] wrote. *)
Lemma Atoi_Itoa z : is_int z → Atoi (Itoa z) = (z, None).
Proof.
  unfold is_int, MinInt64, MaxInt64. intros Hz.
  destruct z as [|p|p]; [reflexivity| |].
  - unfold Itoa. cbn [Z.to_int NilZero.string_of_int].
    pose proof (Unsigned.to_uint_nonnil p) as Hnil.
    assert (Hs : NilZero.string_of_uint (Pos.to_uint p)
                 = NilEmpty.string_of_uint (Pos.to_uint p)).
    { unfold NilZero.string_of_uint. by destruct (Pos.to_uint p). }
    rewrite Hs.
    destruct (string_of_uint_head _ Hnil) as (c & rest & Hc & Hp & Hm).
    rewrite Hc, (Atoi_unsigned c rest Hp Hm), <- Hc, NilEmpty.usu.
    unfold Z.of_uint. rewrite Unsigned.of_to. cbn [Z.of_N].
    destruct (Z.leb_spec (Z.pos p) MaxInt64) as [|Hgt]; [done|].
    unfold MaxInt64 in Hgt. lia.
  - unfold Itoa. cbn [Z.to_int NilZero.string_of_int].
    rewrite Atoi_minus.
    rewrite NilZero.usu by apply Unsigned.to_uint_nonnil.
    unfold Z.of_uint. rewrite Unsigned.of_to. cbn [Z.of_N].
    destruct (Z.leb_spec (Z.pos p) 9223372036854775808) as [|Hgt]; [done|lia].
Qed.

Lemma Atoi_or_panic_Itoa z : is_int z → Atoi_or_panic (Itoa z) = Ok z.
Proof. intros Hz. unfold Atoi_or_panic. by rewrite Atoi_Itoa. Qed.

Lemma Arithmetic_apply_is_int k a b v : Arithmetic_apply k a b = Ok v → is_int v.
Proof.
  destruct k; cbn [Arithmetic_apply]; try (intros [= <-]; apply to_int_is_int).
  unfold int_quo. destruct (b =? 0); [discriminate|].
  intros [= <-]. apply to_int_is_int.
Qed.

Lemma Tree_String_eval t :
  integer_expression t →
  Tree_String t = (v ← Tree_eval t; Ok (Itoa v)) ∧
  (∀ v, Tree_eval t = Ok v → is_int v).
Proof.
  induction t as [p|p|p|k ta IHa tb IHb|n ttoken _ tvalue];
    cbn [integer_expression Tree_String Tree_eval]; intros Hint.
  - split; [reflexivity|]. by intros v [= <-].
  - split; [reflexivity|]. by intros v [= <-].
  - split; [reflexivity|]. by intros v [= <-].
  - destruct Hint as [Ha Hb].
    destruct (IHa Ha) as [Hsa Hva]. destruct (IHb Hb) as [Hsb Hvb].
    rewrite Hsa, Hsb. split.
    + destruct (Tree_eval ta) as [a| |]; cbn [mbind result_bind]; [|done..].
      rewrite (Atoi_or_panic_Itoa a) by by apply Hva.
      cbn [mbind result_bind].
      destruct (Tree_eval tb) as [b| |]; cbn [mbind result_bind]; [|done..].
      rewrite (Atoi_or_panic_Itoa b) by by apply Hvb.
      reflexivity.
    + intros v Hv.
      destruct (Tree_eval ta) as [a| |]; cbn [mbind result_bind] in Hv; [|done..].
      destruct (Tree_eval tb) as [b| |]; cbn [mbind result_bind] in Hv; [|done..].
      by eapply Arithmetic_apply_is_int.
  - done.
Qed.

(** X5. The text of an arithmetic expression over integer tokens is the
    decimal text of its value: the operands are evaluated left to right, the
    operators wrap around as Go's [int] does, a division by zero panics, and
    an expression nested in another is read back exactly. *)
Theorem Arithmetic_String_eval (h : heap) (l : loc) (t : Tree) (fuel : nat) :
  tree_at h l t → (depth t ≤ fuel)%nat → integer_expression t →
  Token_String fuel h l = (v ← Tree_eval t; Ok (Itoa v)) ∧
  (∀ v, Tree_eval t = Ok v → is_int v).
Proof.
  intros Ht Hd Hint. rewrite (Token_String_tree fuel h l t Ht Hd).
  by apply Tree_String_eval.
Qed.

Lemma Arithmetic_String_eval_witness :
  let h : heap :=
    <[4%positive := NArithmetic {| Arithmetic_kind := SubArithmetic;
                                   Arithmetic_a := 3%positive;
                                   Arithmetic_b := 2%positive |}]>
      (<[3%positive := NArithmetic {| Arithmetic_kind := MulArithmetic;
                                      Arithmetic_a := 1%positive;
                                      Arithmetic_b := 2%positive |}]>
         (<[2%positive := NConstantInt {| ConstantInt_value := 4 |}]>
            (<[1%positive := NConstantInt {| ConstantInt_value := 3 |}]> ∅))) in
  Token_String 3 h 4%positive = Ok "8"%string.
Proof.
  intros h.
  refine (proj1 (Arithmetic_String_eval h 4%positive
            (TArithmetic SubArithmetic
               (TArithmetic MulArithmetic
                  (TConstantInt {| ConstantInt_value := 3 |})
                  (TConstantInt {| ConstantInt_value := 4 |}))
               (TConstantInt {| ConstantInt_value := 4 |})) 3 _ _ _)).
  - apply (tree_at_Arithmetic h 4%positive
             {| Arithmetic_kind := SubArithmetic; Arithmetic_a := 3%positive;
                Arithmetic_b := 2%positive |}); [vm_compute; reflexivity| |].
    + apply (tree_at_Arithmetic h 3%positive
               {| Arithmetic_kind := MulArithmetic; Arithmetic_a := 1%positive;
                  Arithmetic_b := 2%positive |}); [vm_compute; reflexivity| |];
        constructor; vm_compute; reflexivity.
    + constructor. vm_compute. reflexivity.
  - simpl. lia.
  - vm_compute. repeat split; discriminate.
Defined.

(** ** The list views *)

(** X6. An arithmetic token shows its two operands: [Get(i)] answers a token
    exactly for [0 <= i < Len()], the left operand at 0 and the right one at 1,
    and the out-of-bound error otherwise; the internal view is the same view;
    and [InternalLogicalRemove(tok)] answers [nil] exactly when [tok] is a
    token of the internal view, and the receiver itself otherwise. *)
Theorem Arithmetic_list_view (e : Arithmetic) (l tok : loc) (i : Z) :
  ((0 ≤ i < Arithmetic_Len e) ↔ ∃ t, Arithmetic_Get e i = inl t) ∧
  (¬ (0 ≤ i < Arithmetic_Len e)
   ↔ Arithmetic_Get e i = inr {| ListError_Type := ListErrorOutOfBound |}) ∧
  Arithmetic_Get e 0 = inl (Arithmetic_a e) ∧
  Arithmetic_Get e 1 = inl (Arithmetic_b e) ∧
  Arithmetic_InternalGet e i = Arithmetic_Get e i ∧
  Arithmetic_InternalLen e = Arithmetic_Len e ∧
  (Arithmetic_InternalLogicalRemove l e tok = None
   ↔ ∃ j, Arithmetic_InternalGet e j = inl tok) ∧
  (Arithmetic_InternalLogicalRemove l e tok ≠ None
   → Arithmetic_InternalLogicalRemove l e tok = Some l).
Proof.
  unfold Arithmetic_InternalGet, Arithmetic_InternalLen, Arithmetic_Len,
    Arithmetic_InternalLogicalRemove.
  assert (Hget : ∀ j, Arithmetic_Get e j
                      = if j =? 0 then inl (Arithmetic_a e)
                        else if j =? 1 then inl (Arithmetic_b e)
                        else inr {| ListError_Type := ListErrorOutOfBound |})
    by reflexivity.
  split; [|split; [|split; [|split; [|split; [|split; [|split]]]]]];
    try reflexivity.
  - rewrite Hget. destruct (Z.eqb_spec i 0); [split; [eauto|lia]|].
    destruct (Z.eqb_spec i 1); [split; [eauto|lia]|].
    split; [lia|]. by intros [t Ht].
  - rewrite Hget. destruct (Z.eqb_spec i 0); [split; [lia|done]|].
    destruct (Z.eqb_spec i 1); [split; [lia|done]|].
    split; [done|lia].
  - case_bool_decide as Ha; cbn [orb].
    { split; [|done]. intros _. exists 0. by rewrite Ha. }
    case_bool_decide as Hb.
    { split; [|done]. intros _. exists 1. by rewrite Hb. }
    split; [done|]. intros [j Hj]. rewrite Hget in Hj.
    destruct (j =? 0); [by injection Hj as <-|].
    destruct (j =? 1); [by injection Hj as <-|done].
  - by destruct (_ || _).
Qed.

(** X7. A list shows its elements to the outside and its template to the
    rewriting passes: [Get(i)] never panics and answers the element at [i]
    exactly for [0 <= i < Len()], and the out-of-bound error otherwise;
    [InternalGet(i)] answers the template exactly for [i == 0], inside
    [InternalLen()]; and [InternalLogicalRemove(tok)] answers [nil] exactly
    when [tok] is the template, and the receiver itself otherwise. *)
Theorem Least_list_view (x : Least) (l tok : loc) (i : Z) :
  (∃ r, Least_Get x i = Ok r ∧
     ((0 ≤ i < Least_Len x) ↔ ∃ t, r = inl t) ∧
     (¬ (0 ≤ i < Least_Len x)
      ↔ r = inr {| ListError_Type := ListErrorOutOfBound |}) ∧
     (∀ t, r = inl t ↔ (0 ≤ i ∧ Least_value x !! Z.to_nat i = Some t))) ∧
  ((0 ≤ i < Least_InternalLen x) ↔ Least_InternalGet x i = inl (Least_token x)) ∧
  (¬ (0 ≤ i < Least_InternalLen x)
   ↔ Least_InternalGet x i = inr {| ListError_Type := ListErrorOutOfBound |}) ∧
  (Least_InternalLogicalRemove l x tok = None
   ↔ ∃ j, Least_InternalGet x j = inl tok) ∧
  (Least_InternalLogicalRemove l x tok ≠ None
   → Least_InternalLogicalRemove l x tok = Some l).
Proof.
  unfold Least_Len, Least_InternalLen, Least_InternalLogicalRemove.
  split; [|split; [|split; [|split]]].
  - unfold Least_Get.
    destruct (Z.ltb_spec i 0) as [Hneg|Hpos]; cbn [orb].
    { eexists. split; [reflexivity|]. split; [|split].
      - split; [lia|]. by intros [t Ht].
      - split; [done|lia].
      - intros t. split; [done|lia]. }
    destruct (Z.leb_spec (Z.of_nat (length (Least_value x))) i) as [Hbig|Hin].
    { eexists. split; [reflexivity|]. split; [|split].
      - split; [lia|]. by intros [t Ht].
      - split; [done|lia].
      - intros t. split; [done|]. intros [_ Ht].
        apply lookup_lt_Some in Ht. lia. }
    destruct (Least_value x !! Z.to_nat i) as [t0|] eqn:Ht0.
    + eexists. split; [reflexivity|]. split; [|split].
      * split; [eauto|lia].
      * split; [lia|done].
      * intros t. split; [by intros [= <-]|]. by intros [_ [= <-]].
    + apply lookup_ge_None in Ht0. lia.
  - unfold Least_InternalGet. destruct (Z.eqb_spec i 0); cbn [negb].
    + split; [done|lia].
    + split; [lia|done].
  - unfold Least_InternalGet. destruct (Z.eqb_spec i 0); cbn [negb].
    + split; [lia|done].
    + split; [done|lia].
  - case_bool_decide as He.
    + split; [|done]. intros _. exists 0. by rewrite <- He.
    + split; [done|]. intros [j Hj]. unfold Least_InternalGet in Hj.
      destruct (negb _); [done|]. by injection Hj as <-.
  - by destruct (bool_decide _).
Qed.

(** ** Building and fuzzing a list *)











(** ** Counting and choosing permutations *)

Lemma enumerable_dec t : enumerable t ∨ ¬ enumerable t.
Proof.
  induction t as [p|p|p|k ta IHa tb IHb|n ttoken _ tvalue];
    cbn [enumerable]; try tauto.
  destruct (Z.eq_dec (RangeInt_step p) 0); tauto.
Qed.

Lemma to_uint_to_uint z : to_uint (to_uint z) = to_uint z.
Proof. apply to_uint_id, to_uint_is_uint. Qed.

Lemma RangeInt_Permutations_uint p n :
  RangeInt_Permutations p = Ok n → to_uint n = n.
Proof.
  unfold RangeInt_Permutations. intros H. bind_inv H as q Eq.
  destruct (_ <? 0); injection H as <-; [reflexivity|apply to_uint_to_uint].
Qed.

Lemma uint_mul_to_uint a b : uint_mul (to_uint a) (to_uint b) = to_uint (1 * (a * b)).
Proof.
  unfold uint_mul, to_uint. rewrite Z.mul_1_l. symmetry. apply Z.mul_mod. lia.
Qed.

Lemma Token_PermutationsAll_tree fuel :
  ∀ (h : heap) l t, tree_at h l t → (depth t ≤ fuel)%nat →
    (enumerable t →
       Token_PermutationsAll fuel h l = Ok (to_uint (Tree_Permutations_product t))) ∧
    (¬ enumerable t → ∃ msg, Token_PermutationsAll fuel h l = Panic msg).
Proof.
  induction fuel as [|fuel IH]; intros h l t Ht Hd.
  { pose proof (depth_pos t). lia. }
  inversion Ht as [? p Hl|? p Hl|? p Hl|? e ta tb Hl Ha Hb
                  |? x ttoken tvalue Hl Htok Hval]; subst;
    cbn [Token_PermutationsAll enumerable Tree_Permutations_product]; rewrite Hl.
  - split; [reflexivity|tauto].
  - split; [reflexivity|tauto].
  - unfold RangeInt_PermutationsAll. split.
    + intros Hs. destruct (RangeInt_Permutations p) as [n|msg|] eqn:E.
      * by rewrite (RangeInt_Permutations_uint p n E).
      * exfalso. unfold RangeInt_Permutations, int_quo in E.
        destruct (Z.eqb_spec (RangeInt_step p) 0); [done|].
        cbn [mbind result_bind] in E. by destruct (_ <? 0).
      * exfalso. unfold RangeInt_Permutations, int_quo in E.
        destruct (Z.eqb_spec (RangeInt_step p) 0); [done|].
        cbn [mbind result_bind] in E. by destruct (_ <? 0).
    + intros Hs. assert (Hz : RangeInt_step p = 0).
      { destruct (Z.eq_dec (RangeInt_step p) 0); [done|]. by exfalso; apply Hs. }
      unfold RangeInt_Permutations, int_quo. rewrite Hz. eauto.
  - apply depth_Arithmetic_inv in Hd as [Hda Hdb].
    destruct (IH h _ ta Ha Hda) as [Hao Hap].
    destruct (IH h _ tb Hb Hdb) as [Hbo Hbp].
    unfold Arithmetic_PermutationsAll. split.
    + intros [Hea Heb]. rewrite (Hao Hea), (Hbo Heb). cbn [mbind result_bind].
      by rewrite uint_mul_to_uint.
    + intros Hne. destruct (enumerable_dec ta) as [Hea|Hea].
      * rewrite (Hao Hea). cbn [mbind result_bind].
        destruct (Hbp ltac:(tauto)) as [msg ->]. eauto.
      * destruct (Hap Hea) as [msg ->]. eauto.
  - split; [done|]. intros _. unfold Least_PermutationsAll. eauto.
Qed.

(** X10. On a token that holds a tree, [PermutationsAll()] is the product of
    the local counts of all the tokens of the tree, reduced modulo 2^64: the
    multiplication wraps around.  That holds when the tree has no list and no
    range with step zero; on any other tree the call panics. *)
Theorem Token_PermutationsAll_product (h : heap) (l : loc) (t : Tree) (fuel : nat) :
  tree_at h l t → (depth t ≤ fuel)%nat →
  (enumerable t →
     Token_PermutationsAll fuel h l = Ok (Tree_Permutations_product t mod 2 ^ 64)) ∧
  (¬ enumerable t → ∃ msg, Token_PermutationsAll fuel h l = Panic msg).
Proof.
  intros Ht Hd.
  replace (2 ^ 64) with 18446744073709551616 by (by vm_compute).
  by apply Token_PermutationsAll_tree.
Qed.

Lemma Token_PermutationsAll_product_witness :
  let r := {| RangeInt_from := 0; RangeInt_to := 4294967295; RangeInt_step := 1;
              RangeInt_value := 0 |} in
  let h : heap :=
    <[2%positive := NArithmetic {| Arithmetic_kind := AddArithmetic;
                                   Arithmetic_a := 1%positive;
                                   Arithmetic_b := 1%positive |}]>
      (<[1%positive := NRangeInt r]> ∅) in
  let t := TArithmetic AddArithmetic (TRangeInt r) (TRangeInt r) in
  Token_PermutationsAll 2 h 2%positive = Ok (Tree_Permutations_product t mod 2 ^ 64) ∧
  Tree_Permutations_product t = 18446744073709551616 ∧
  Tree_Permutations_product t mod 2 ^ 64 = 0.
Proof.
  intros r h t. split; [|split; vm_compute; reflexivity].
  refine (proj1 (Token_PermutationsAll_product h 2%positive t 2 _ _) _).
  - apply (tree_at_Arithmetic h 2%positive
             {| Arithmetic_kind := AddArithmetic; Arithmetic_a := 1%positive;
                Arithmetic_b := 1%positive |}); [vm_compute; reflexivity| |];
      constructor; vm_compute; reflexivity.
  - simpl. lia.
  - vm_compute. split; discriminate.
Defined.

(** X11. [Permutation(i)] on a constant, random, ranged or arithmetic token
    whose [Permutations()] is [n]: outside [[1, n]] it returns the
    index-out-of-bound error and leaves the store as it was; inside, it
    succeeds and changes at most the token itself, never a child or any other
    token.  On a list both [Permutations()] and [Permutation(i)] panic. *)
Theorem Token_Permutation_index (h : heap) (l : loc) (nd : Node) (i : Z) :
  h !! l = Some nd →
  match nd with
  | NLeast _ =>
      (∃ msg, Token_Permutations h l = Panic msg) ∧
      (∃ msg, Token_Permutation h l i = Panic msg)
  | _ =>
      ∀ n, Token_Permutations h l = Ok n →
        (i < 1 ∨ n < i →
           Token_Permutation h l i
           = Ok (h, Some {| PermutationError_Type := PermutationErrorIndexOutOfBound |})) ∧
        (1 ≤ i ≤ n →
           ∃ h', Token_Permutation h l i = Ok (h', None) ∧
                 ∀ l', l' ≠ l → h' !! l' = h !! l')
  end.
Proof.
  intros Hl. unfold Token_Permutations, Token_Permutation. rewrite Hl.
  destruct nd as [p|p|p|e|x].
  - intros n [= <-]. unfold ConstantInt_Permutation, ConstantInt_Permutations.
    split.
    + intros Hi. replace ((i <? 1) || (1 <? i)) with true
        by (symmetry; apply orb_true_iff; rewrite !Z.ltb_lt; lia).
      by rewrite insert_id.
    + intros Hi. replace ((i <? 1) || (1 <? i)) with false
        by (symmetry; apply orb_false_iff; rewrite !Z.ltb_ge; lia).
      eexists. split; [reflexivity|]. intros l' Hne. by rewrite lookup_insert_ne.
  - intros n [= <-]. unfold RandomInt_Permutation, RandomInt_Permutations.
    split.
    + intros Hi. replace ((i <? 1) || (1 <? i)) with true
        by (symmetry; apply orb_true_iff; rewrite !Z.ltb_lt; lia).
      by rewrite insert_id.
    + intros Hi. replace ((i <? 1) || (1 <? i)) with false
        by (symmetry; apply orb_false_iff; rewrite !Z.ltb_ge; lia).
      eexists. split; [reflexivity|]. intros l' Hne. by rewrite lookup_insert_ne.
  - intros n Hn. unfold RangeInt_Permutation. rewrite Hn.
    cbn [mbind result_bind]. split.
    + intros Hi. replace ((i <? 1) || (n <? i)) with true
        by (symmetry; apply orb_true_iff; rewrite !Z.ltb_lt; lia).
      cbn [mbind result_bind]. by rewrite insert_id.
    + intros Hi. replace ((i <? 1) || (n <? i)) with false
        by (symmetry; apply orb_false_iff; rewrite !Z.ltb_ge; lia).
      cbn [mbind result_bind].
      eexists. split; [reflexivity|]. intros l' Hne. by rewrite lookup_insert_ne.
  - intros n [= <-]. unfold Arithmetic_Permutation, Arithmetic_Permutations.
    split.
    + intros Hi. by replace ((i <? 1) || (1 <? i)) with true
        by (symmetry; apply orb_true_iff; rewrite !Z.ltb_lt; lia).
    + intros Hi. replace ((i <? 1) || (1 <? i)) with false
        by (symmetry; apply orb_false_iff; rewrite !Z.ltb_ge; lia).
      eexists. split; [reflexivity|]. done.
  - unfold Least_Permutations, Least_Permutation. cbn [mbind result_bind]. eauto.
Qed.

Lemma Token_Permutation_index_witness :
  let h : heap := <[1%positive := NRandomInt {| RandomInt_value := 5 |}]> ∅ in
  (0 < 1 ∨ 1 < 0 →
     Token_Permutation h 1%positive 0
     = Ok (h, Some {| PermutationError_Type := PermutationErrorIndexOutOfBound |})) ∧
  (1 ≤ 1 ≤ 1 →
     ∃ h', Token_Permutation h 1%positive 1 = Ok (h', None) ∧
           ∀ l', l' ≠ 1%positive → h' !! l' = h !! l').
Proof.
  intros h.
  pose proof (Token_Permutation_index h 1%positive
                (NRandomInt {| RandomInt_value := 5 |}) 0) as H0.
  pose proof (Token_Permutation_index h 1%positive
                (NRandomInt {| RandomInt_value := 5 |}) 1) as H1.
  cbn beta iota in H0, H1.
  split.
  - exact (proj1 (H0 ltac:(vm_compute; reflexivity) 1 ltac:(vm_compute; reflexivity))).
  - exact (proj2 (H1 ltac:(vm_compute; reflexivity) 1 ltac:(vm_compute; reflexivity))).
Defined.

(** ** FuzzAll stays inside the tokens it is called on *)














(** ** Replacing an operand *)

(** The trees below a token do not pass through the token. *)
Lemma tree_at_delete_smaller (h : heap) l tl :
  tree_at h l tl →
  ∀ n l' t', (depth t' ≤ n)%nat → (n < depth tl)%nat →
    tree_at h l' t' → tree_at (delete l h) l' t'.
Proof.
  intros Htl. induction n as [|n IH]; intros l' t' Hd Hn Ht'.
  { pose proof (depth_pos t'). lia. }
  destruct (decide (l' = l)) as [->|Hne].
  { exfalso. rewrite (tree_at_det _ _ _ _ Ht' Htl) in Hd. lia. }
  inversion Ht' as [? p Hl'|? p Hl'|? p Hl'|? e ta tb Hl' Ha Hb
                   |? x' ttoken tvalue Hl' Htok Hval]; subst.
  - constructor. by rewrite lookup_delete_ne.
  - constructor. by rewrite lookup_delete_ne.
  - constructor. by rewrite lookup_delete_ne.
  - apply depth_Arithmetic_inv in Hd as [Hda Hdb].
    constructor; [by rewrite lookup_delete_ne|apply IH; [done|lia|done]..].
  - apply depth_Least_inv in Hd as [Hdt Hdv].
    constructor; [by rewrite lookup_delete_ne|apply IH; [done|lia|done]|].
    eapply Forall2_Forall_impl; [exact Hval|exact Hdv|].
    intros a b Hab Hb. apply IH; [done|lia|done].
Qed.

(** X13. On an arithmetic token whose operands hold trees, with [new] holding
    a tree that does not pass through the token, [InternalReplace(old, new)]
    returns and replaces exactly the operands that are the token [old]: both
    when [old] is both operands, none when it is neither.  The operator is
    kept, no other token of the store changes, and the expression afterwards
    is the one before with the tree of [new] in place of the replaced
    operands. *)
Theorem Arithmetic_InternalReplace_spec (h : heap) (l oldToken newToken : loc)
    (e : Arithmetic) (ta tb tn : Tree) :
  h !! l = Some (NArithmetic e) →
  tree_at h (Arithmetic_a e) ta → tree_at h (Arithmetic_b e) tb →
  tree_at (delete l h) newToken tn →
  ∃ h' e',
    Arithmetic_InternalReplace h l oldToken newToken = Ok h' ∧
    h' !! l = Some (NArithmetic e') ∧
    Arithmetic_kind e' = Arithmetic_kind e ∧
    Arithmetic_a e' = (if decide (oldToken = Arithmetic_a e) then newToken
                       else Arithmetic_a e) ∧
    Arithmetic_b e' = (if decide (oldToken = Arithmetic_b e) then newToken
                       else Arithmetic_b e) ∧
    (∀ l', l' ≠ l → h' !! l' = h !! l') ∧
    tree_at h' l
      (TArithmetic (Arithmetic_kind e)
         (if decide (oldToken = Arithmetic_a e) then tn else ta)
         (if decide (oldToken = Arithmetic_b e) then tn else tb)).
Proof.
  intros Hl Ha Hb Hn.
  assert (Htl : tree_at h l (TArithmetic (Arithmetic_kind e) ta tb))
    by (by constructor).
  assert (Ha' : tree_at (delete l h) (Arithmetic_a e) ta).
  { apply (tree_at_delete_smaller h l _ Htl (depth ta)); [done| |done].
    simpl. lia. }
  assert (Hb' : tree_at (delete l h) (Arithmetic_b e) tb).
  { apply (tree_at_delete_smaller h l _ Htl (depth tb)); [done| |done].
    simpl. lia. }
  assert (Hweak : ∀ l' t' nd, tree_at (delete l h) l' t' →
                              tree_at (<[l := nd]> h) l' t').
  { intros l' t' nd Ht'. eapply tree_at_mono; [apply delete_insert_sub|done]. }
  destruct e as [k a b]. cbn [Arithmetic_kind Arithmetic_a Arithmetic_b] in *.
  unfold Arithmetic_InternalReplace, get_Arithmetic. rewrite Hl.
  cbn [mbind result_bind]. cbv zeta.
  cbn [Arithmetic_kind Arithmetic_a Arithmetic_b].
  destruct (decide (oldToken = a)) as [Hoa|Hoa];
    cbn [Arithmetic_kind Arithmetic_a Arithmetic_b];
    destruct (decide (oldToken = b)) as [Hob|Hob];
    cbn [Arithmetic_kind Arithmetic_a Arithmetic_b];
    eexists _, _; (split; [reflexivity|]);
    (split; [apply lookup_insert_eq|]);
    cbn [Arithmetic_kind Arithmetic_a Arithmetic_b];
    (split; [reflexivity|]); (split; [reflexivity|]); (split; [reflexivity|]);
    (split; [intros l' Hne; by rewrite lookup_insert_ne|]).
  - apply (tree_at_Arithmetic _ l
             {| Arithmetic_kind := k; Arithmetic_a := newToken;
                Arithmetic_b := newToken |});
      [apply lookup_insert_eq|by apply Hweak..].
  - apply (tree_at_Arithmetic _ l
             {| Arithmetic_kind := k; Arithmetic_a := newToken;
                Arithmetic_b := b |});
      [apply lookup_insert_eq|by apply Hweak..].
  - apply (tree_at_Arithmetic _ l
             {| Arithmetic_kind := k; Arithmetic_a := a;
                Arithmetic_b := newToken |});
      [apply lookup_insert_eq|by apply Hweak..].
  - apply (tree_at_Arithmetic _ l
             {| Arithmetic_kind := k; Arithmetic_a := a; Arithmetic_b := b |});
      [apply lookup_insert_eq|by apply Hweak..].
Qed.

Lemma Arithmetic_InternalReplace_spec_witness :
  let h : heap :=
    <[4%positive := NConstantInt {| ConstantInt_value := 10 |}]>
      (<[3%positive := NArithmetic {| Arithmetic_kind := SubArithmetic;
                                      Arithmetic_a := 1%positive;
                                      Arithmetic_b := 2%positive |}]>
         (<[2%positive := NConstantInt {| ConstantInt_value := 4 |}]>
            (<[1%positive := NConstantInt {| ConstantInt_value := 3 |}]> ∅))) in
  ∃ h', Arithmetic_InternalReplace h 3%positive 1%positive 4%positive = Ok h' ∧
    tree_at h' 3%positive
      (TArithmetic SubArithmetic (TConstantInt {| ConstantInt_value := 10 |})
         (TConstantInt {| ConstantInt_value := 4 |})).
Proof.
  intros h.
  destruct (Arithmetic_InternalReplace_spec h 3%positive 1%positive 4%positive
              {| Arithmetic_kind := SubArithmetic; Arithmetic_a := 1%positive;
                 Arithmetic_b := 2%positive |}
              (TConstantInt {| ConstantInt_value := 3 |})
              (TConstantInt {| ConstantInt_value := 4 |})
              (TConstantInt {| ConstantInt_value := 10 |}))
    as (h' & e' & H1 & _ & _ & _ & _ & _ & H2).
  - vm_compute. reflexivity.
  - constructor. vm_compute. reflexivity.
  - constructor. vm_compute. reflexivity.
  - constructor. vm_compute. reflexivity.
  - exists h'. split; [exact H1|exact H2].
Defined.

(** ** Parsing what String wrote *)

Ltac digit_value_compute :=
  repeat match goal with
  | |- context [digit_value (Ascii ?a ?b ?c ?d ?e ?f ?g ?h)] =>
      let v := eval vm_compute in (digit_value (Ascii a b c d e f g h)) in
      change (digit_value (Ascii a b c d e f g h)) with v
  end.

Lemma uint_of_char_value c d0 d :
  not_digit c = false → uint_of_char c (Some d0) = Some d →
  0 ≤ digit_value c ≤ 9 ∧
  (∀ acc, Pos.of_uint_acc d acc
          = Pos.of_uint_acc d0 (Z.to_pos (digit_value c + 10 * Z.pos acc))) ∧
  Pos.of_uint d
  = (if digit_value c =? 0 then Pos.of_uint d0
     else N.pos (Pos.of_uint_acc d0 (Z.to_pos (digit_value c)))).
Proof.
  destruct c as [[] [] [] [] [] [] [] []]; intros H;
    try (vm_compute in H; discriminate H);
    intros [= <-]; digit_value_compute;
    (split; [lia|]); (split; [|reflexivity]);
    intros acc; cbn [Pos.of_uint_acc]; f_equal;
    apply Pos2Z.inj; rewrite Z2Pos.id by lia; lia.
Qed.

Lemma of_uint_acc_value s :
  ∀ d acc, digits_only s → NilEmpty.uint_of_string s = Some d →
    Z.pos (Pos.of_uint_acc d acc) = digits_value s (Z.pos acc).
Proof.
  unfold digits_only. induction s as [|c s IH]; intros d acc Hs Hd.
  - injection Hd as <-. reflexivity.
  - cbn [bytes list_ascii_of_string] in Hs.
    inversion Hs as [|? ? Hc Hrest]; subst.
    cbn [NilEmpty.uint_of_string] in Hd.
    destruct (uint_of_string_digits s Hrest) as [d0 Hd0]. rewrite Hd0 in Hd.
    destruct (uint_of_char_value c d0 d Hc Hd) as (Hk & Hacc & _).
    rewrite Hacc, (IH d0 _ Hrest Hd0), Z2Pos.id by lia.
    cbn [digits_value]. f_equal. lia.
Qed.

Lemma of_uint_value s :
  ∀ d, digits_only s → NilEmpty.uint_of_string s = Some d →
    Z.of_N (Pos.of_uint d) = digits_value s 0.
Proof.
  unfold digits_only. induction s as [|c s IH]; intros d Hs Hd.
  - injection Hd as <-. reflexivity.
  - cbn [bytes list_ascii_of_string] in Hs.
    inversion Hs as [|? ? Hc Hrest]; subst.
    cbn [NilEmpty.uint_of_string] in Hd.
    destruct (uint_of_string_digits s Hrest) as [d0 Hd0]. rewrite Hd0 in Hd.
    destruct (uint_of_char_value c d0 d Hc Hd) as (Hk & _ & ->).
    cbn [digits_value]. destruct (Z.eqb_spec (digit_value c) 0) as [->|Hne].
    + rewrite (IH d0 Hrest Hd0). reflexivity.
    + cbn [Z.of_N]. rewrite (of_uint_acc_value s d0 _ Hrest Hd0).
      rewrite Z2Pos.id by lia. f_equal.
Qed.

(** On a non-empty run of digits [Atoi] gives the number they spell, or
    [MaxInt64] when that number is larger. *)
Lemma Atoi_digits_value v :
  digits_only v → v ≠ EmptyString →
  fst (Atoi v) = Z.min (digits_value v 0) MaxInt64.
Proof.
  intros Hv Hne. destruct (Atoi_digits v Hv Hne) as (d & Hd & _ & ->).
  unfold Z.of_uint. rewrite (of_uint_value v d Hv Hd).
  destruct (Z.leb_spec (digits_value v 0) MaxInt64); cbn [fst]; lia.
Qed.

Lemma digits_value_app s1 s2 acc :
  digits_value (String.append s1 s2) acc = digits_value s2 (digits_value s1 acc).
Proof.
  revert acc. induction s1 as [|c s1 IH]; intros acc; [reflexivity|].
  cbn [String.append digits_value]. apply IH.
Qed.

Lemma digit_value_range c : not_digit c = false → 0 ≤ digit_value c ≤ 9.
Proof.
  unfold not_digit, digit_value. intros [H1 H2]%orb_false_elim.
  apply N.ltb_ge in H1, H2. lia.
Qed.

Lemma digits_value_ge s :
  ∀ acc, digits_only s → 0 ≤ acc → acc ≤ digits_value s acc.
Proof.
  unfold digits_only. induction s as [|c s IH]; intros acc Hs Hacc.
  - reflexivity.
  - cbn [bytes list_ascii_of_string] in Hs.
    inversion Hs as [|? ? Hc Hrest]; subst.
    pose proof (digit_value_range c Hc). cbn [digits_value].
    etrans; [|apply (IH _ Hrest)]; lia.
Qed.

Lemma digits_only_append v1 v2 :
  digits_only v1 → digits_only v2 → digits_only (String.append v1 v2).
Proof.
  unfold digits_only. intros H1 H2. rewrite bytes_append. by apply Forall_app.
Qed.

(** More digits never make the number that [Atoi] reads smaller. *)
Lemma Atoi_prefix_le v1 v2 :
  digits_only v1 → digits_only v2 →
  fst (Atoi v1) ≤ fst (Atoi (String.append v1 v2)).
Proof.
  intros H1 H2. pose proof (digits_only_append _ _ H1 H2) as H12.
  destruct v1 as [|c v1].
  { change (fst (Atoi EmptyString)) with 0. by apply Atoi_digits_nonneg. }
  rewrite (Atoi_digits_value _ H1) by discriminate.
  rewrite (Atoi_digits_value _ H12) by discriminate.
  rewrite digits_value_app.
  pose proof (digits_value_ge _ 0 H1 ltac:(lia)).
  pose proof (digits_value_ge v2 _ H2 ltac:(eassumption)). lia.
Qed.

Lemma digits_only_string_of_uint d : digits_only (NilEmpty.string_of_uint d).
Proof.
  unfold digits_only.
  induction d; cbn [NilEmpty.string_of_uint bytes list_ascii_of_string];
    constructor; solve [reflexivity | exact IHd].
Qed.

(** The text of an [int] that is not negative is a run of digits. *)
Lemma digits_only_Itoa z : 0 ≤ z → digits_only (Itoa z).
Proof.
  intros Hz. destruct z as [|p|p]; [by repeat constructor| |lia].
  unfold Itoa. cbn [Z.to_int NilZero.string_of_int].
  pose proof (Unsigned.to_uint_nonnil p) as Hnil.
  replace (NilZero.string_of_uint (Pos.to_uint p))
    with (NilEmpty.string_of_uint (Pos.to_uint p))
    by (unfold NilZero.string_of_uint; by destruct (Pos.to_uint p)).
  apply digits_only_string_of_uint.
Qed.

Lemma string_of_list_ascii_app l1 l2 :
  string_of_list_ascii (l1 ++ l2)
  = String.append (string_of_list_ascii l1) (string_of_list_ascii l2).
Proof. induction l1 as [|x l1 IH]; simpl; [reflexivity|]. by rewrite IH. Qed.

(** A slice from the start is a prefix. *)
Lemma slice_prefix s i v :
  slice s 0 i = Ok v →
  ∃ rest, s = String.append v rest ∧
          (digits_only s → digits_only v ∧ digits_only rest).
Proof.
  intros (_ & Hi & Hlen & ->)%slice_inv.
  change (Z.to_nat 0) with 0%nat. rewrite drop_0, Z.sub_0_r.
  exists (string_of_list_ascii (drop (Z.to_nat i) (bytes s))). split.
  - rewrite <- string_of_list_ascii_app, take_drop. symmetry.
    apply string_of_bytes.
  - unfold digits_only. rewrite !bytes_of_string. intros Hs.
    split; [by apply Forall_take|by apply Forall_drop].
Qed.

(** On a buffer that is a run of digits spelling a number not above [to], the
    loop reads the whole buffer. *)
Lemma RangeInt_Parse_loop_all p text :
  digits_only text → len text ≤ MaxInt64 → fst (Atoi text) ≤ RangeInt_to p →
  ∀ fuel i v,
    0 ≤ i < len text → (Z.to_nat (len text - i) < fuel)%nat →
    slice text 0 i = Ok v →
    RangeInt_Parse_loop fuel p (NewInternalParser text) i v
    = Ok (len text, text).
Proof.
  intros Htext Hmax Hto. unfold MaxInt64 in Hmax.
  induction fuel as [|fuel IH]; intros i v Hi Hfuel Hs; [lia|].
  destruct (index_total text i Hi) as [c Hc].
  cbn [RangeInt_Parse_loop NewInternalParser Data DataLen].
  rewrite Hc. cbn [mbind result_bind].
  pose proof Hc as [_ Hlk]%index_Ok.
  assert (Hd : not_digit c = false).
  { unfold digits_only in Htext. rewrite Forall_lookup in Htext.
    exact (Htext _ _ Hlk). }
  rewrite Hd.
  pose proof (slice_snoc _ _ _ _ _ (proj1 Hi) Hc Hs) as Hs1.
  destruct (slice_prefix _ _ _ Hs1) as (rest & Hrest & Hdig).
  destruct (Hdig Htext) as [Hv1 Hr].
  assert (Hle : fst (Atoi (String.append v (String c EmptyString)))
                ≤ RangeInt_to p).
  { etrans; [apply (Atoi_prefix_le _ rest Hv1 Hr)|]. by rewrite <- Hrest. }
  destruct (Z.ltb_spec (RangeInt_to p)
              (fst (Atoi (String.append v (String c EmptyString))))); [lia|].
  assert (Hadd : int_add i 1 = i + 1).
  { apply to_int_id. unfold is_int, MinInt64, MaxInt64. lia. }
  rewrite Hadd. destruct (Z.eqb_spec (i + 1) (len text)) as [He|Hne].
  - rewrite He in Hs1. rewrite slice_whole in Hs1. injection Hs1 as <-.
    by rewrite He.
  - apply IH; [lia|lia|exact Hs1].
Qed.

(** X14. [RangeInt.Parse] reads back what [String()] wrote: when the value of
    the range is not negative, lies within [[from, to]] and leaves no remainder
    on division by the step, parsing the rendering consumes all of it, reports
    no error and leaves the range as it was. *)
Theorem RangeInt_String_Parse (p : RangeInt) :
  is_int (RangeInt_value p) → 0 ≤ RangeInt_value p →
  RangeInt_from p ≤ RangeInt_value p ≤ RangeInt_to p →
  RangeInt_step p ≠ 0 →
  Z.rem (RangeInt_value p) (RangeInt_step p) = 0 →
  RangeInt_Parse p (NewInternalParser (RangeInt_String p)) 0
  = Ok (p, (len (RangeInt_String p), [])).
Proof.
  intros Hint Hnn Hrange Hstep Hrem. unfold RangeInt_String.
  pose proof (Itoa_len _ Hint) as Hlen.
  pose proof (digits_only_Itoa _ Hnn) as Hdig.
  pose proof (Atoi_Itoa _ Hint) as Hatoi.
  set (text := Itoa (RangeInt_value p)) in *.
  unfold RangeInt_Parse. cbn [NewInternalParser Data DataLen].
  destruct (Z.eqb_spec 0 (len text)) as [He|_]; [lia|].
  pose proof (RangeInt_Parse_loop_all p text Hdig ltac:(unfold MaxInt64; lia)
                ltac:(rewrite Hatoi; cbn [fst]; lia)
                (S (String.length text)) 0 EmptyString
                ltac:(lia) ltac:(unfold len; lia)
                ltac:(apply slice_empty; lia)) as Hloop.
  cbn [NewInternalParser] in Hloop. rewrite Hloop. cbn [mbind result_bind].
  rewrite Hatoi. cbn [fst].
  destruct (String.eqb_spec text EmptyString) as [Hemp|_].
  { rewrite Hemp in Hlen. vm_compute in Hlen. destruct Hlen as [Hl _].
    exfalso. by apply Hl. }
  destruct (Z.ltb_spec (RangeInt_value p) (RangeInt_from p)); [lia|].
  destruct (Z.ltb_spec (RangeInt_to p) (RangeInt_value p)); [lia|].
  cbn [orb].
  assert (Hr : int_rem (RangeInt_value p) (RangeInt_step p) = Ok 0).
  { unfold int_rem. destruct (Z.eqb_spec (RangeInt_step p) 0); [done|].
    rewrite Hrem. reflexivity. }
  rewrite Hr. cbn [mbind result_bind negb Z.eqb].
  assert (Hsub : int_add (int_sub (len text) 1) 1 = len text).
  { unfold int_add, int_sub.
    rewrite (to_int_id (len text - 1))
      by (unfold is_int, MinInt64, MaxInt64; lia).
    replace (len text - 1 + 1) with (len text) by lia.
    apply to_int_id. unfold is_int, MinInt64, MaxInt64. lia. }
  rewrite Hsub. by destruct p.
Qed.

Lemma RangeInt_String_Parse_witness :
  let p := {| RangeInt_from := 0; RangeInt_to := 100; RangeInt_step := 5;
              RangeInt_value := 45 |} in
  RangeInt_Parse p (NewInternalParser "45") 0 = Ok (p, (2, [])).
Proof.
  intros p.
  apply (RangeInt_String_Parse p); vm_compute; try (split; discriminate);
    try discriminate; reflexivity.
Defined.
